(** * ResourceCalculator: a shallow embedding of [build.py]

    The build script has three parts that carry logic of their own:
    the sprite packer [create_packed_image], the recipe validator
    ([lint_recipe] followed by [ensure_valid_requirements]) and the
    staleness test at the head of [create_calculator_page]
    ([get_oldest_modified_time], [get_newest_modified_time]).  Of the
    rest of [create_calculator_page] the style loop, the width rules
    and the check for icons without recipe are embedded as well.

    Conventions of the embedding.
    - Python integers are [Z].  File names, item names and keys are
      [string]s of bytes, the UTF-8 encoding of the Python strings: the
      byte order used for sorting is the order of code points, and the
      regular expression [[^a-z]] keeps the bytes of the letters [a-z].
      [str.lower] is followed on ASCII and on the two other characters
      whose lowercase has an ASCII letter in it, which makes the simple
      name of line 272 the one Python computes for every name.
    - [print] appends a [message] to an output log; an uncaught Python
      exception ends the run.  Both are threaded through the monad
      [run].
    - What the file system and the programs called give is an input of
      the functions: the listing of the icon directory with the sizes
      of the images, whether [pngquant] can be started, the trees of
      files with their creation times.
    - The expressions [math.ceil(math.sqrt(a / b))], [math.ceil(a / b)]
      and [math.floor(a / b)] go through floats in Python.  They are
      modelled by their exact values; for the sizes a sprite sheet can
      have (numerator and denominator far below [2^26]) the float
      computation returns the same integers.
    - [os.path.getctime] yields a float; only [<], [min] and [max] are
      applied to it, so timestamps are modelled by [Z] (any unit). *)

From Stdlib Require Import ZArith Lia Ascii.
From stdpp Require Import base list strings gmap sorting.

Local Open Scope Z_scope.

(** ** Exceptions, printed lines, and the [run] monad *)

Inductive exn : Type :=
| TypeError
| ValueError
| ZeroDivisionError
| IndexError
| KeyError (key : string)
| NotADirectoryError.

(** One constructor per [print] statement of the script; the arguments
    are the values interpolated into the line ([calc] is the calculator
    name, which the line shows in upper case). *)
Inductive message : Type :=
| SizeMismatch (file reference : string)                  (* lines 66-67 *)
| CompressionFailed (e : string)                           (* lines 97-98 *)
| MissingKey (calc item : string) (i : nat) (key : string) (* line 141 *)
| UnknownKey (calc item : string) (i : nat) (key : string) (* line 146 *)
| KeyOrder (calc item : string) (i : nat) (key : string)   (* lines 151, 154, 157 *)
| InvalidRawResource (calc item : string)                  (* line 166 *)
| MissingRawResource (calc item : string)                  (* line 169 *)
| MultipleRawResource (calc item : string)                 (* line 171 *)
| UnknownRequirement (resource requirement : string)       (* line 184 *)
| PositiveRequirement (resource requirement : string)      (* line 186 *)
| Skipping (calc : string)                                 (* line 243 *)
| MissingIcon (simple : string).                           (* line 279 *)

#[global] Instance exn_eq_dec : EqDecision exn.
Proof. solve_decision. Defined.

#[global] Instance message_eq_dec : EqDecision message.
Proof. solve_decision. Defined.

Inductive result (A : Type) : Type :=
| Ok (a : A)
| Raise (e : exn).
Arguments Ok {A} a.
Arguments Raise {A} e.

Definition run (A : Type) : Type := (list message * result A)%type.

Definition print (m : message) : run unit := ([m], Ok tt).
Definition raise {A} (e : exn) : run A := ([], Raise e).

#[global] Instance run_ret : MRet run := λ A a, ([], Ok a).
#[global] Instance run_bind : MBind run := λ A B f m,
  match m with
  | (out, Ok a) => let '(out', r) := f a in (out ++ out', r)
  | (out, Raise e) => (out, Raise e)
  end.

(** [for x in l: s = body(s, x)] *)
Fixpoint for_in {A S : Type} (l : list A) (s : S) (body : S → A → run S) : run S :=
  match l with
  | [] => mret s
  | x :: l' => s' ← body s x; for_in l' s' body
  end.

(** [for x in l: body(x)] *)
Definition for_each {A : Type} (l : list A) (body : A → run unit) : run unit :=
  for_in l tt (λ _ x, body x).

(** [for index, x in enumerate(l): s = body(s, index, x)] *)
Definition enumerate {A : Type} (l : list A) : list (nat * A) :=
  zip (seq 0 (length l)) l.

Definition output {A} (m : run A) : list message := m.1.
Definition outcome {A} (m : run A) : result A := m.2.

(** ** Strings: [os.path.splitext], [str.lower], [re.sub] *)

Module Str.

Definition chars (s : string) : list ascii := String.list_ascii_of_string s.
Definition of_chars (l : list ascii) : string := String.string_of_list_ascii l.

(** [s.rfind(c)]: index of the last occurrence, [-1] when absent. *)
Fixpoint rfind_from (c : ascii) (l : list ascii) (i : Z) (found : Z) : Z :=
  match l with
  | [] => found
  | a :: l' => rfind_from c l' (i + 1) (if Ascii.eqb a c then i else found)
  end.
Definition rfind (c : ascii) (s : string) : Z := rfind_from c (chars s) 0 (-1).

(** [p[:n]] and [p[i:i+1] != c] for [0 <= n], [0 <= i]. *)
Definition prefix (n : Z) (s : string) : string :=
  of_chars (take (Z.to_nat n) (chars s)).
Definition differs_at (i : Z) (c : ascii) (s : string) : bool :=
  match chars s !! Z.to_nat i with
  | Some a => negb (Ascii.eqb a c)
  | None => true
  end.

(** The loop of [genericpath._splitext] that skips leading dots:
    [while filenameIndex < dotIndex: ...], run for [fuel] rounds. *)
Fixpoint skip_dots (fuel : nat) (p : string) (filenameIndex dotIndex : Z) : string :=
  match fuel with
  | O => p
  | S fuel' =>
      if filenameIndex <? dotIndex then
        if differs_at filenameIndex "."%char p then prefix dotIndex p
        else skip_dots fuel' p (filenameIndex + 1) dotIndex
      else p
  end.

(** [os.path.splitext(p)[0]] on a POSIX path. *)
Definition splitext_root (p : string) : string :=
  let sepIndex := rfind "/"%char p in
  let dotIndex := rfind "."%char p in
  if sepIndex <? dotIndex
  then skip_dots (Z.to_nat (dotIndex - sepIndex)) p (sepIndex + 1) dotIndex
  else p.

Definition is_upper (a : ascii) : bool :=
  (65 <=? nat_of_ascii a)%nat && (nat_of_ascii a <=? 90)%nat.
Definition is_lower (a : ascii) : bool :=
  (97 <=? nat_of_ascii a)%nat && (nat_of_ascii a <=? 122)%nat.

(** The lowercase of an ASCII character. *)
Definition lower_char (a : ascii) : ascii :=
  if is_upper a then ascii_of_nat (nat_of_ascii a + 32) else a.

Definition byte (n : nat) : ascii := ascii_of_nat n.

(** [s.lower()], on the UTF-8 encoding of [s].  The letters [A-Z] are
    lowered.  Outside ASCII two characters have a lowercase form with
    an ASCII letter in it: U+0130 (bytes 196 176) becomes [i] followed
    by U+0307 (bytes 204 135), and U+212A (bytes 226 132 170) becomes
    [k].  Every other character outside ASCII is left as it is:
    [str.lower] may replace it by other characters outside ASCII, and
    line 272 removes those as it removes the original. *)
Fixpoint lower_chars (l : list ascii) : list ascii :=
  match l with
  | [] => []
  | a :: l1 =>
      match l1 with
      | b :: l2 =>
          if Ascii.eqb a (byte 196) && Ascii.eqb b (byte 176)
          then "i"%char :: byte 204 :: byte 135 :: lower_chars l2
          else
            match l2 with
            | c :: l3 =>
                if Ascii.eqb a (byte 226) && Ascii.eqb b (byte 132)
                   && Ascii.eqb c (byte 170)
                then "k"%char :: lower_chars l3
                else lower_char a :: lower_chars l1
            | [] => lower_char a :: lower_chars l1
            end
      | [] => lower_char a :: lower_chars l1
      end
  end.

Definition lower (s : string) : string := of_chars (lower_chars (chars s)).

(** [re.sub(r'[^a-z]', '', s)] *)
Definition strip_non_lower (s : string) : string :=
  of_chars (filter (λ a, is_lower a = true) (chars s)).

End Str.

(** [simple_name = re.sub(r'[^a-z]', '', recipe.lower())] (line 272) *)
Definition simple_name (item : string) : string :=
  Str.strip_non_lower (Str.lower item).

(** ** The sprite packer: [create_packed_image] *)

(** An entry of [os.listdir(resource_image_folder)] together with the
    [size] of the image [Image.open] returns for it.  The pixels are not
    modelled: no coordinate depends on them. *)
Record image_file : Type := ImageFile {
  file_name : string;
  image_width : Z;
  image_height : Z
}.

(** [standard_width], [standard_height] and [standard_image_reference]
    are assigned together (lines 62-64), so they are [None] together. *)
Record standard : Type := Standard {
  standard_width : Z;
  standard_height : Z;
  standard_image_reference : string
}.

(** The state of the loop of lines 56-67. *)
Record scan : Type := Scan {
  scan_standard : option standard;
  images : list (string * image_file)
}.

(** Lines 57-67: the body of the loop. *)
Definition scan_file (st : scan) (file : image_file) : run scan :=
  let images' := images st ++ [(Str.splitext_root (file_name file), file)] in
  match scan_standard st with
  | None =>
      mret (Scan (Some (Standard (image_width file) (image_height file) (file_name file)))
                 images')
  | Some sd =>
      if negb (standard_width sd =? image_width file)
         || negb (standard_height sd =? image_height file)
      then _ ← print (SizeMismatch (file_name file) (standard_image_reference sd));
           mret (Scan (Some sd) images')
      else mret (Scan (Some sd) images')
  end.

(** [images.sort(key=lambda x: x[0])]: Python's sort is stable, and a
    stable sort has one result; insertion sort computes it. *)
Fixpoint insert_by_name {A : Type} (x : string * A) (l : list (string * A))
  : list (string * A) :=
  match l with
  | [] => [x]
  | y :: l' => if String.leb x.1 y.1 then x :: y :: l' else y :: insert_by_name x l'
  end.

Definition sort_by_name {A : Type} (l : list (string * A)) : list (string * A) :=
  foldr insert_by_name [] l.

(** [math.ceil(a / b)] and [math.floor(a / b)] for [b <> 0] *)
Definition ceil_div (a b : Z) : Z := - ((- a) / b).
Definition floor_div (a b : Z) : Z := a / b.

(** [math.ceil(math.sqrt(a / b))] *)
Definition ceil_sqrt_div (a b : Z) : run Z :=
  if b =? 0 then raise ZeroDivisionError
  else if a * b <? 0 then raise ValueError
  else mret (Z.sqrt_up (ceil_div a b)).

(** The image written to [output/<calculator>/<calculator>.png]: its
    size ([Image.new], line 81) and the boxes of the [paste] calls. *)
Record sheet : Type := Sheet {
  result_width : Z;
  result_height : Z;
  pasted : list (string * (Z * Z))
}.

(** What [create_packed_image] returns (line 100), and the sheet it
    saved. *)
Record packed : Type := Packed {
  packed_width : Z;
  packed_height : Z;
  image_coordinates : gmap string (Z * Z);
  result_image : sheet
}.

(** The body of the loop of lines 82-86. *)
Definition place (columns : Z) (sd : standard)
    (acc : gmap string (Z * Z) * list (string * (Z * Z)))
    (entry : nat * (string * image_file))
  : gmap string (Z * Z) * list (string * (Z * Z)) :=
  let '(index, (name, _)) := entry in
  let x_coordinate := (Z.of_nat index `mod` columns) * standard_height sd in
  let y_coordinate := floor_div (Z.of_nat index) columns * standard_width sd in
  (<[name := (x_coordinate, y_coordinate)]> acc.1,
   acc.2 ++ [(name, (x_coordinate, y_coordinate))]).

(** Lines 94-98.  [subprocess.run] raises [OSError] when [pngquant]
    cannot be started; the error is caught and printed.  [pngquant] is
    [Some e] with the text of that error, and [None] when the program
    was started (its exit status is not looked at). *)
Definition compress (pngquant : option string) : run unit :=
  match pngquant with
  | None => mret tt
  | Some e => print (CompressionFailed e)
  end.

(** Lines 43-100.  [listing] is [os.listdir(resource_image_folder)]
    and [pngquant] what the call of line 95 does.  Saving the sheet
    (lines 89-91) changes neither the value returned nor the boxes. *)
Definition create_packed_image (pngquant : option string) (listing : list image_file)
  : run packed :=
  st ← for_in listing (Scan None []) scan_file;
  let images := sort_by_name (images st) in
  let count := Z.of_nat (length images) in
  match scan_standard st with
  | None => raise TypeError            (* [None * len(images)], line 76 *)
  | Some sd =>
      columns ← ceil_sqrt_div (standard_height sd * count) (standard_width sd);
      let result_width := standard_width sd * columns in
      if columns =? 0 then raise ZeroDivisionError  (* [len(images)/columns], line 78 *)
      else
        let result_height := standard_height sd * ceil_div count columns in
        let '(coordinates, boxes) :=
          foldl (place columns sd) (∅, []) (enumerate images) in
        _ ← compress pngquant;
        mret (Packed (standard_width sd) (standard_height sd) coordinates
                     (Sheet result_width result_height boxes))
  end.

(** Lines 270-279 of [create_calculator_page]: the style of one item. *)
Inductive item_style : Type :=
| BackgroundPosition (x y : Z)
| Purple.

Definition style_of (resource_image_coordinates : gmap string (Z * Z)) (recipe : string)
  : run item_style :=
  let simple_name := simple_name recipe in
  match resource_image_coordinates !! simple_name with
  | Some (x_coordinate, y_coordinate) =>
      mret (BackgroundPosition (- x_coordinate) (- y_coordinate))
  | None =>
      _ ← print (MissingIcon simple_name); mret Purple
  end.

(** ** The recipe validator: [lint_recipe], [ensure_valid_requirements] *)

(** The values [ordered_load] builds from [resources.yaml], as far as
    the validator looks at them: [None], integers, strings and ordered
    mappings with string keys.  A mapping is kept as the list of its
    items in file order; its keys are distinct. *)
#[local] Unset Elimination Schemes.
Inductive value : Type :=
| VNone
| VInt (z : Z)
| VStr (s : string)
| VMap (items : list (string * value)).
#[local] Set Elimination Schemes.

(** A recipe is one such mapping, a calculator's [resources] map each
    item name to the sequence of its recipes. *)
Definition recipe : Type := list (string * value).
Definition resources : Type := list (string * list recipe).

(** [a == b]: on these values Python's equality is structural equality
    (between two [OrderedDict]s it compares the items in order). *)
#[global] Instance value_eq_dec : EqDecision value.
Proof.
  refine (fix go (a b : value) {struct a} : Decision (a = b) :=
    match a, b with
    | VNone, VNone => left eq_refl
    | VInt x, VInt y => cast_if (decide (x = y))
    | VStr s, VStr t => cast_if (decide (s = t))
    | VMap l1, VMap l2 =>
        cast_if
          ((fix items (l1 l2 : list (string * value)) {struct l1} : Decision (l1 = l2) :=
              match l1, l2 with
              | [], [] => left eq_refl
              | (k1, v1) :: r1, (k2, v2) :: r2 =>
                  cast_if_and3 (decide (k1 = k2)) (go v1 v2) (items r1 r2)
              | _, _ => right _
              end) l1 l2)
    | _, _ => right _
    end); abstract congruence.
Defined.

Definition py_eq (a b : value) : bool := bool_decide (a = b).

(** [l[i]] for a list and [i >= 0] *)
Definition item_at {A : Type} (l : list A) (i : nat) : run A :=
  match l !! i with
  | Some x => mret x
  | None => raise IndexError
  end.

(** [d.get(k)], the first (and only) item with key [k] *)
Fixpoint dict_get (d : list (string * value)) (k : string) : option value :=
  match d with
  | [] => None
  | (k', v) :: d' => if String.eqb k' k then Some v else dict_get d' k
  end.

(** [d[k]] for a mapping *)
Definition getitem (d : list (string * value)) (k : string) : run value :=
  match dict_get d k with
  | Some v => mret v
  | None => raise (KeyError k)
  end.

(** [k in l] for a list or the keys of a mapping *)
Definition contains (l : list string) (k : string) : bool :=
  existsb (String.eqb k) l.

(** [for x in v]: a mapping yields its keys, a string its characters,
    [None] and integers are not iterable. *)
Definition iterate (v : value) : run (list string) :=
  match v with
  | VMap items => mret items.*1
  | VStr s => mret ((λ a, String.String a String.EmptyString) <$> Str.chars s)
  | VNone | VInt _ => raise TypeError
  end.

(** [v[k]] for a string key [k] *)
Definition subscript (v : value) (k : string) : run value :=
  match v with
  | VMap items => getitem items k
  | VStr _ | VNone | VInt _ => raise TypeError
  end.

(** [v > 0] *)
Definition greater_than_zero (v : value) : run bool :=
  match v with
  | VInt z => mret (0 <? z)
  | VNone | VStr _ | VMap _ => raise TypeError
  end.

Definition required_keys : list string := ["output"; "recipe_type"; "requirements"].
Definition optional_keys : list string := ["extra_data"].
Definition valid_keys : list string := required_keys ++ optional_keys.

(** The recipe line 163 compares with. *)
Definition raw_resource (item_name : string) : recipe :=
  [("output", VInt 1); ("recipe_type", VStr "Raw Resource");
   ("requirements", VMap [(item_name, VInt 0)])].

(** Lines 149-157: [if recipe_keys[n] != valid_keys[n]: print(...)] *)
Definition check_key_order (calculator_name item_name : string) (i : nat)
    (recipe_keys : list string) (n : nat) : run unit :=
  recipe_key ← item_at recipe_keys n;
  valid_key ← item_at valid_keys n;
  if negb (String.eqb recipe_key valid_key)
  then print (KeyOrder calculator_name item_name i valid_key)
  else mret tt.

(** Lines 134-157: the body of the first loop. *)
Definition lint_keys (calculator_name item_name : string) (i : nat) (recipe : recipe)
  : run unit :=
  let recipe_keys := recipe.*1 in
  _ ← for_each required_keys (λ required_key,
        if negb (contains recipe_keys required_key)
        then print (MissingKey calculator_name item_name i required_key)
        else mret tt);
  _ ← for_each recipe_keys (λ recipe_key,
        if negb (contains valid_keys recipe_key)
        then print (UnknownKey calculator_name item_name i recipe_key)
        else mret tt);
  _ ← check_key_order calculator_name item_name i recipe_keys 0;
  _ ← check_key_order calculator_name item_name i recipe_keys 1;
  check_key_order calculator_name item_name i recipe_keys 2.

(** Lines 160-166: the body of the second loop, on [raw_resource_count]. *)
Definition count_raw_resource (calculator_name item_name : string)
    (raw_resource_count : Z) (recipe : recipe) : run Z :=
  recipe_type ← getitem recipe "recipe_type";
  if py_eq recipe_type (VStr "Raw Resource") then
    if py_eq (VMap recipe) (VMap (raw_resource item_name))
    then mret (raw_resource_count + 1)
    else _ ← print (InvalidRawResource calculator_name item_name);
         mret raw_resource_count
  else mret raw_resource_count.

Definition lint_recipe (calculator_name item_name : string) (recipes : list recipe)
  : run unit :=
  _ ← for_each (enumerate recipes) (λ '(i, recipe),
        lint_keys calculator_name item_name i recipe);
  raw_resource_count ← for_in recipes 0 (count_raw_resource calculator_name item_name);
  if raw_resource_count =? 0 then
    print (MissingRawResource calculator_name item_name)
  else if 1 <? raw_resource_count then
    print (MultipleRawResource calculator_name item_name)
  else mret tt.

(** Lines 182-186: the body of the innermost loop. *)
Definition check_requirement (resources : resources) (resource : string)
    (recipe : recipe) (requirement : string) : run unit :=
  if negb (contains resources.*1 requirement) then
    print (UnknownRequirement resource requirement)
  else
    requirements ← getitem recipe "requirements";
    quantity ← subscript requirements requirement;
    is_positive ← greater_than_zero quantity;
    if is_positive : bool then print (PositiveRequirement resource requirement)
    else mret tt.

Definition ensure_valid_requirements (resources : resources) : run unit :=
  for_each resources (λ '(resource, recipes),
    for_each recipes (λ recipe,
      requirements ← getitem recipe "requirements";
      keys ← iterate requirements;
      for_each keys (check_requirement resources resource recipe))).

(** Lines 262-264 of [create_calculator_page]: the whole validation. *)
Definition validate (calculator_name : string) (recipes : resources) : run unit :=
  _ ← for_each recipes (λ '(recipe, item_recipes),
        lint_recipe calculator_name recipe item_recipes);
  ensure_valid_requirements recipes.

(** ** The staleness test: the head of [create_calculator_page] *)

(** What the test sees of the file system: a file with its creation
    time, or a directory with its entries in [os.listdir] order. *)
#[local] Unset Elimination Schemes.
Inductive node : Type :=
| File (ctime : Z)
| Directory (entries : list (string * node)).
#[local] Set Elimination Schemes.

(** [min(time_list)] and [max(time_list)] *)
Definition py_min (time_list : list Z) : run Z :=
  match time_list with
  | [] => raise ValueError
  | t :: rest => mret (foldl Z.min t rest)
  end.

Definition py_max (time_list : list Z) : run Z :=
  match time_list with
  | [] => raise ValueError
  | t :: rest => mret (foldl Z.max t rest)
  end.

(** The loop shared by lines 197-202 and 214-219: for each entry of
    the directory, [recurse] on a sub-directory or the creation time of
    a file, appended to [time_list]. *)
Definition time_list_of (recurse : node → run Z)
  : list (string * node) → run (list Z) :=
  fix loop (files : list (string * node)) : run (list Z) :=
    match files with
    | [] => mret []
    | (_, File ctime) :: files' =>
        time_list ← loop files'; mret (ctime :: time_list)
    | (_, (Directory _) as filepath) :: files' =>
        t ← recurse filepath; time_list ← loop files'; mret (t :: time_list)
    end.

(** Lines 195-203. *)
Fixpoint get_oldest_modified_time (path : node) : run Z :=
  match path with
  | File _ => raise NotADirectoryError
  | Directory entries =>
      time_list ← time_list_of get_oldest_modified_time entries;
      py_min time_list
  end.

(** Lines 212-220. *)
Fixpoint get_newest_modified_time (path : node) : run Z :=
  match path with
  | File _ => raise NotADirectoryError
  | Directory entries =>
      time_list ← time_list_of get_newest_modified_time entries;
      py_max time_list
  end.

(** The paths the test reads: [output/<calculator>] if it exists,
    [resource_lists/<calculator>], [core], and the creation time of
    [build.py]. *)
Record file_system : Type := FileSystem {
  calculator_folder : option node;
  source_folder : node;
  core : node;
  build_script : Z
}.

(** [Skip] is the early [return] of line 244, [Build] the fall-through
    to line 246 and the rest of the page build. *)
Inductive decision : Type := Skip | Build.

(** Lines 230-244 of [create_calculator_page]: the staleness test.  The
    result [Build] is the point before line 246; what the build prints
    and does from there on is not part of this function. *)
Definition create_calculator_page (calculator_name : string) (fs : file_system)
  : run decision :=
  match calculator_folder fs with
  | None => mret Build                       (* [os.makedirs], then the build *)
  | Some folder =>
      oldest_output ← get_oldest_modified_time folder;
      newest_resource ← get_newest_modified_time (source_folder fs);
      newest_corelib ← get_newest_modified_time (core fs);
      let newest_build_script := build_script fs in
      if Z.max (Z.max newest_resource newest_corelib) newest_build_script <? oldest_output
      then _ ← print (Skipping calculator_name); mret Skip
      else mret Build
  end.

(** ** Specification vocabulary for names *)

(** The lowercase of the character outside ASCII that starts with byte
    [a] and goes on in [l], when it is one of the two that
    [lower_chars] rewrites, and what follows that character. *)
Definition lower_special (a : ascii) (l : list ascii)
  : option (list ascii * list ascii) :=
  match l with
  | b :: l' =>
      if Ascii.eqb a (Str.byte 196) && Ascii.eqb b (Str.byte 176)
      then Some (["i"%char; Str.byte 204; Str.byte 135], l')
      else
        match l' with
        | c :: l'' =>
            if Ascii.eqb a (Str.byte 226) && Ascii.eqb b (Str.byte 132)
               && Ascii.eqb c (Str.byte 170)
            then Some (["k"%char], l'')
            else None
        | [] => None
        end
  | [] => None
  end.

(** A byte that starts neither of these two characters, and a byte
    that continues one of them. *)
Definition plain (a : ascii) : bool :=
  negb (Ascii.eqb a (Str.byte 196)) && negb (Ascii.eqb a (Str.byte 226)).
Definition continuation (a : ascii) : bool :=
  Ascii.eqb a (Str.byte 176) || Ascii.eqb a (Str.byte 132) || Ascii.eqb a (Str.byte 170).

(** ** Specification vocabulary for the packer *)

(** The pair appended to [images] for a file (line 58). *)
Definition entry (file : image_file) : string * image_file :=
  (Str.splitext_root (file_name file), file).

(** The reference dimensions: those of the first file listed. *)
Definition reference (listing : list image_file) : option standard :=
  match listing with
  | [] => None
  | file :: _ =>
      Some (Standard (image_width file) (image_height file) (file_name file))
  end.

(** The coordinates lines 83-84 compute for index [i], from the column
    count and the reference width [w] and height [h]. *)
Definition coordinate (columns w h : Z) (i : nat) : Z * Z :=
  ((Z.of_nat i `mod` columns) * h, (Z.of_nat i / columns) * w).

Fixpoint boxes_from (columns w h : Z) (k : nat) (names : list string)
  : list (string * (Z * Z)) :=
  match names with
  | [] => []
  | name :: names' =>
      (name, coordinate columns w h k) :: boxes_from columns w h (S k) names'
  end.

(** A dictionary filled by successive assignments [d[k] = v]. *)
Definition assign_all (m : gmap string (Z * Z)) (l : list (string * (Z * Z)))
  : gmap string (Z * Z) :=
  foldl (λ m e, <[e.1 := e.2]> m) m l.

Definition image_size (file : image_file) : Z * Z :=
  (image_width file, image_height file).

Definition name_le {A : Type} (x y : string * A) : Prop := String.le x.1 y.1.

(** The result of the packer as a function of the reference dimensions
    and of the sorted names alone. *)
Definition pack (size : option (Z * Z)) (names : list string) : result packed :=
  match size with
  | None => Raise TypeError
  | Some (w, h) =>
      let count := Z.of_nat (length names) in
      if w =? 0 then Raise ZeroDivisionError
      else if h * count * w <? 0 then Raise ValueError
      else
        let columns := Z.sqrt_up (ceil_div (h * count) w) in
        if columns =? 0 then Raise ZeroDivisionError
        else
          let boxes := boxes_from columns w h 0 names in
          Ok (Packed w h (assign_all ∅ boxes)
                (Sheet (w * columns) (h * ceil_div count columns) boxes))
  end.

(** Shorthand for test inputs. *)
Definition img (name : string) (w h : Z) : image_file := ImageFile name w h.

(** [c] is the ceiling of the square root of the rational [a / b], and
    [q] the ceiling of [a / b], for [0 < b]: stated without division. *)
Definition is_ceil_sqrt_div (a b c : Z) : Prop :=
  0 ≤ c ∧ ∀ d, 0 ≤ d → c ≤ d ↔ a ≤ d * d * b.
Definition is_ceil_div (a b q : Z) : Prop :=
  ∀ d, q ≤ d ↔ a ≤ d * b.

(** ** Specification vocabulary for the validator *)

(** A recipe the first loop of [lint_recipe] can index and the second
    can read: at least three keys, one of them [recipe_type]. *)
Definition lintable (r : recipe) : Prop :=
  (3 ≤ length r)%nat ∧ is_Some (dict_get r "recipe_type").

Definition is_raw_resource (r : recipe) : Prop :=
  dict_get r "recipe_type" = Some (VStr "Raw Resource").

(** The requirements of a recipe when they are, as the data model has
    them, a mapping from names to integers. *)
Definition quantity_of (e : string * value) : option (string * Z) :=
  match e.2 with
  | VInt z => Some (e.1, z)
  | _ => None
  end.

Definition requirement_entries (r : recipe) : option (list (string * Z)) :=
  match dict_get r "requirements" with
  | Some (VMap items) => mapM quantity_of items
  | _ => None
  end.

Definition typed_requirements (r : recipe) (entries : list (string * Z)) : Prop :=
  requirement_entries r = Some entries ∧ NoDup entries.*1.

Definition typed_recipes (recipes : list recipe) : Prop :=
  Forall (λ r, ∃ entries, typed_requirements r entries) recipes.

(** The issue the specification asks for on one requirement entry. *)
Definition spec_requirement_issue (names : list string) (resource : string)
    (entry : string * Z) : list message :=
  if decide (entry.1 ∈ names) then
    if decide (0 < entry.2) then [PositiveRequirement resource entry.1] else []
  else [UnknownRequirement resource entry.1].

(** ** Specification vocabulary for the staleness test *)

(** The creation times of all files below a node. *)
Fixpoint file_times (path : node) : list Z :=
  match path with
  | File ctime => [ctime]
  | Directory entries =>
      (fix loop (files : list (string * node)) : list Z :=
         match files with
         | [] => []
         | (_, filepath) :: files' => file_times filepath ++ loop files'
         end) entries
  end.

(** Some directory at or below the node has no entry. *)
Fixpoint has_empty_directory (path : node) : bool :=
  match path with
  | File _ => false
  | Directory entries =>
      match entries with
      | [] => true
      | _ =>
          (fix loop (files : list (string * node)) : bool :=
             match files with
             | [] => false
             | (_, filepath) :: files' => has_empty_directory filepath || loop files'
             end) entries
      end
  end.

Definition is_directory (path : node) : Prop :=
  match path with Directory _ => True | File _ => False end.

Definition is_minimum (m : Z) (l : list Z) : Prop := m ∈ l ∧ ∀ t, t ∈ l → m ≤ t.
Definition is_maximum (m : Z) (l : list Z) : Prop := m ∈ l ∧ ∀ t, t ∈ l → t ≤ m.

(** The lines of the raw-resource check (lines 166, 169 and 171). *)
Definition is_raw_resource_message (m : message) : bool :=
  match m with
  | InvalidRawResource _ _ | MissingRawResource _ _ | MultipleRawResource _ _ => true
  | _ => false
  end.

(** A Raw Resource recipe of the wrong shape. *)
Definition offending (item_name : string) (r : recipe) : Prop :=
  is_raw_resource r ∧ r ≠ raw_resource item_name.

Definition key_message (m : message) : Prop := is_raw_resource_message m = false.

(** [m] returns [a] without an exception, and every line it prints
    satisfies [P]. *)
Definition returns {A : Type} (m : run A) (a : A) (P : message → Prop) : Prop :=
  outcome m = Ok a ∧ Forall P (output m).

(** All issues the specification asks for on a dataset, in the order of
    the items, their recipes and the entries of each recipe. *)
Definition spec_requirement_issues (all : resources) : list message :=
  '(resource, recipes) ← all;
  r ← recipes;
  entry ← default [] (requirement_entries r);
  spec_requirement_issue all.*1 resource entry.

(** Test data: an item with a positive, a negative and an unknown
    requirement. *)
Definition crafting (requirements : list (string * value)) : recipe :=
  [("output", VInt 4); ("recipe_type", VStr "Crafting");
   ("requirements", VMap requirements)].

Definition sample_resources : resources :=
  [("wood", [raw_resource "wood"]);
   ("plank", [raw_resource "plank";
              crafting [("wood", VInt 3)];
              crafting [("wood", VInt (-3))];
              crafting [("stick", VInt (-1))]])].

(** Test data: three recipes of type "Raw Resource" for one item, the
    first of another shape than the required one. *)
Definition surplus_recipes : list recipe :=
  [[("output", VInt 2); ("recipe_type", VStr "Raw Resource");
    ("requirements", VMap [("wood", VInt 0)])];
   raw_resource "wood";
   raw_resource "wood"].

(** Test data: the second recipe of [plank] has no [requirements], the
    third requires a positive quantity of [wood]. *)
Definition unguarded_resources : resources :=
  [("wood", [raw_resource "wood"]);
   ("plank", [raw_resource "plank";
              [("output", VInt 4); ("recipe_type", VStr "Crafting");
               ("extra_data", VNone)];
              crafting [("wood", VInt 3)]])].

(** The same with [requirements: null]. *)
Definition unguarded_resources_null : resources :=
  [("wood", [raw_resource "wood"]);
   ("plank", [raw_resource "plank";
              [("output", VInt 4); ("recipe_type", VStr "Crafting");
               ("requirements", VNone)];
              crafting [("wood", VInt 3)]])].

(** A tree both traversals accept: a directory without an empty
    directory at or below it. *)
Definition traversable (path : node) : Prop :=
  is_directory path ∧ has_empty_directory path = false.

(** The two traversals are one traversal up to the choice between [min]
    and [max]; [walk_by op] is that traversal, used to prove facts about
    both at once. *)
Definition pick_by (op : Z → Z → Z) (time_list : list Z) : run Z :=
  match time_list with
  | [] => raise ValueError
  | t :: rest => mret (foldl op t rest)
  end.

Fixpoint walk_by (op : Z → Z → Z) (path : node) : run Z :=
  match path with
  | File _ => raise NotADirectoryError
  | Directory entries =>
      time_list ← time_list_of (walk_by op) entries;
      pick_by op time_list
  end.

Definition is_extremum (R : relation Z) (m : Z) (l : list Z) : Prop :=
  m ∈ l ∧ ∀ t, t ∈ l → R m t.

(** Test data: an output tree, a source tree with a nested directory,
    and a source tree with an empty directory. *)
Definition sample_output : node :=
  Directory [("index.html", File 20); ("minecraft.png", File 18)].
Definition sample_source : node :=
  Directory [("resources.yaml", File 12);
             ("items", Directory [("wood.png", File 7); ("plank.png", File 15)])].
Definition sample_core : node :=
  Directory [("calculator.js", File 9); ("calculator.html", File 11)].
Definition sample_empty : node :=
  Directory [("resources.yaml", File 12); ("items", Directory [])].

(** A recipe on which the validator has nothing to report, for an item
    [item_name] of a dataset with item names [names]: the keys are
    [output], [recipe_type], [requirements] in this order, perhaps
    followed by [extra_data]; the requirements map known items to
    quantities that are not positive; and a recipe of type
    "Raw Resource" has the required shape. *)
Definition clean_recipe (names : list string) (item_name : string) (r : recipe) : Prop :=
  take 3 r.*1 = required_keys ∧
  Forall (λ k, k ∈ valid_keys) r.*1 ∧
  (∃ entries, typed_requirements r entries ∧
              Forall (λ e, e.1 ∈ names ∧ e.2 ≤ 0) entries) ∧
  (is_raw_resource r → r = raw_resource item_name).

Definition clean_item (names : list string) (item : string * list recipe) : Prop :=
  Forall (clean_recipe names item.1) item.2 ∧
  length (filter (λ r, r = raw_resource item.1) item.2) = 1%nat.

Definition clean_resources : resources :=
  [("wood", [raw_resource "wood"]);
   ("plank", [raw_resource "plank"; crafting [("wood", VInt (-4))]])].

(** ** The rest of [create_calculator_page]: styles, orphans, widths *)

(** An element of the list [resources] the template receives (lines
    271 and 281-283). *)
Record page_resource : Type := PageResource {
  mc_value : string;
  simplename : string
}.

(** Lines 270-283: the body of the loop, on [item_styles] and
    [resources]. *)
Definition add_item (resource_image_coordinates : gmap string (Z * Z))
    (acc : gmap string item_style * list page_resource) (recipe : string)
  : run (gmap string item_style * list page_resource) :=
  style ← style_of resource_image_coordinates recipe;
  mret (<[simple_name recipe := style]> acc.1,
        acc.2 ++ [PageResource recipe (simple_name recipe)]).

Definition item_styles (resource_image_coordinates : gmap string (Z * Z))
    (recipes : resources) : run (gmap string item_style * list page_resource) :=
  for_in recipes.*1 (∅, []) (add_item resource_image_coordinates).

(** The keys of a dictionary in the order Python iterates them: the
    order in which they were first assigned.  For the coordinate map
    these are the names of the paste boxes. *)
Fixpoint keys_in_order (seen : list string) (names : list string) : list string :=
  match names with
  | [] => []
  | k :: names' =>
      if decide (k ∈ seen) then keys_in_order seen names'
      else k :: keys_in_order (k :: seen) names'
  end.

(** Lines 318-321: the names for which the warning "has an image but
    no recipe" is printed, in the order of the lines. *)
Definition orphan_icons (p : packed) (page_resources : list page_resource)
  : list string :=
  let simple_resources := simplename <$> page_resources in
  filter (λ simple_name, contains simple_resources simple_name = false)
         (keys_in_order [] (pasted (result_image p)).*1).

(** The style line 276 or 278 gives to a simple name. *)
Definition style_for (resource_image_coordinates : gmap string (Z * Z))
    (simple : string) : item_style :=
  match resource_image_coordinates !! simple with
  | Some (x, y) => BackgroundPosition (- x) (- y)
  | None => Purple
  end.

(** One "@media only screen and (max-width: ...px) and (min-width:
    ...px) { .resource_content { width: ...px} }" block of
    [content_width_css], by the three numbers printed in it (lines 298
    and 305). *)
Record media_rule : Type := MediaRule {
  max_width : Z;
  min_width : Z;
  content_width : Z
}.

Definition media_padding : Z := 40.

Definition new_css (content_width screen_max : Z) : media_rule :=
  MediaRule (screen_max + media_padding - 1) (content_width + media_padding)
            content_width.

(** Lines 295-300: the [while] loop, run for at most [fuel] tests of
    its condition; [None] when the fuel does not suffice. *)
Fixpoint content_width_loop (fuel : nat)
    (iteration row_group_count image_width_with_padding : Z)
    (content_width_css : list media_rule) : option (list media_rule) :=
  match fuel with
  | O => None
  | S fuel' =>
      if iteration * row_group_count * image_width_with_padding <? 3840 then
        let content_width := iteration * row_group_count * image_width_with_padding in
        let screen_max := (iteration + 1) * row_group_count * image_width_with_padding in
        content_width_loop fuel' (iteration + 1) row_group_count
          image_width_with_padding
          (content_width_css ++ [new_css content_width screen_max])
      else Some content_width_css
  end.

(** [range(start, stop)] *)
Definition range (start stop : Z) : list Z := seqZ start (stop - start).

(** Lines 286-306.  [row_group_count] is [yaml_data["row_group_count"]]
    when the key is present (an integer) and [1] otherwise. *)
Definition content_width_rules (fuel : nat) (row_group_count : option Z)
    (image_width : Z) : option (list media_rule) :=
  let row_group_count := default 1 row_group_count in
  let image_width_with_padding := image_width + 6 in
  content_width_css ←
    content_width_loop fuel 1 row_group_count image_width_with_padding [];
  Some (content_width_css
        ++ ((λ i, new_css (i * image_width_with_padding)
                          ((i + 1) * image_width_with_padding))
              <$> range 1 row_group_count)).

(** * Properties *)

(** ** The [run] monad *)

Lemma outcome_bind {A B} (m : run A) (f : A → run B) :
  outcome (m ≫= f) =
  match outcome m with Ok a => outcome (f a) | Raise e => Raise e end.
Proof.
  destruct m as [out [a|e]]; simpl; [|done].
  unfold mbind, run_bind. by destruct (f a).
Qed.

Lemma output_bind {A B} (m : run A) (f : A → run B) :
  output (m ≫= f) =
  output m ++ match outcome m with Ok a => output (f a) | Raise e => [] end.
Proof.
  destruct m as [out [a|e]]; simpl; [|by rewrite app_nil_r].
  unfold mbind, run_bind. by destruct (f a).
Qed.

Lemma outcome_ret {A} (a : A) : outcome (mret a) = Ok a.
Proof. done. Qed.

Lemma outcome_print_bind {A} (msg : message) (k : unit → run A) :
  outcome (print msg ≫= k) = outcome (k tt).
Proof. by rewrite outcome_bind. Qed.

(** ** The packer *)

Lemma scan_listing listing s acc :
  outcome (for_in listing (Scan s acc) scan_file) =
  Ok (Scan (match s with Some _ => s | None => reference listing end)
           (acc ++ (entry <$> listing))).
Proof.
  revert s acc. induction listing as [|file listing IH]; intros s acc; simpl.
  - rewrite app_nil_r. by destruct s.
  - rewrite outcome_bind. unfold scan_file at 1. simpl.
    destruct s as [sd|]; simpl.
    + destruct (negb _ || negb _); simpl;
        rewrite IH, <- app_assoc; done.
    + rewrite IH, <- app_assoc. done.
Qed.

Lemma boxes_from_lookup columns w h k names i :
  boxes_from columns w h k names !! i =
  (λ name, (name, coordinate columns w h (k + i))) <$> names !! i.
Proof.
  revert k i. induction names as [|name names IH]; intros k [|i]; simpl; try done.
  - by rewrite Nat.add_0_r.
  - rewrite IH. by replace (S k + i)%nat with (k + S i)%nat by lia.
Qed.

Lemma boxes_from_length columns w h k names :
  length (boxes_from columns w h k names) = length names.
Proof. revert k. induction names; intros; simpl; auto. Qed.

Lemma boxes_from_names columns w h k names :
  (boxes_from columns w h k names).*1 = names.
Proof. revert k. induction names; intros; simpl; f_equal; auto. Qed.

Lemma foldl_place columns sd (l : list (string * image_file)) k m b :
  foldl (place columns sd) (m, b) (zip (seq k (length l)) l) =
  (assign_all m (boxes_from columns (standard_width sd) (standard_height sd) k l.*1),
   b ++ boxes_from columns (standard_width sd) (standard_height sd) k l.*1).
Proof.
  revert k m b. induction l as [|[name file] l IH]; intros k m b; simpl.
  - by rewrite app_nil_r.
  - rewrite IH. unfold assign_all. simpl. by rewrite <- app_assoc.
Qed.

Lemma ceil_div_le a b d : 0 < b → ceil_div a b ≤ d ↔ a ≤ d * b.
Proof.
  intros Hb. unfold ceil_div.
  pose proof (Z.div_mod (- a) b ltac:(lia)) as Hdm.
  pose proof (Z.mod_pos_bound (- a) b Hb) as Hr.
  split; intros H; nia.
Qed.

Lemma ceil_div_is_ceil a b : 0 < b → is_ceil_div a b (ceil_div a b).
Proof. intros Hb d. by apply ceil_div_le. Qed.

Lemma ceil_div_nonneg a b : 0 ≤ a → 0 < b → 0 ≤ ceil_div a b.
Proof.
  intros Ha Hb. destruct (Z.le_gt_cases 0 (ceil_div a b)) as [|Hlt]; [done|].
  assert (ceil_div a b ≤ -1) as Hle by lia.
  apply ceil_div_le in Hle; [lia|done].
Qed.

Lemma sqrt_up_ceil_div_le a b d :
  0 ≤ a → 0 < b → 0 ≤ d → Z.sqrt_up (ceil_div a b) ≤ d ↔ a ≤ d * d * b.
Proof.
  intros Ha Hb Hd.
  rewrite <- Z.sqrt_up_le_square by auto using ceil_div_nonneg.
  unfold Z.square. by rewrite ceil_div_le.
Qed.

Lemma sqrt_up_ceil_div_is_ceil a b :
  0 ≤ a → 0 < b → is_ceil_sqrt_div a b (Z.sqrt_up (ceil_div a b)).
Proof.
  intros Ha Hb. split; [apply Z.sqrt_up_nonneg|].
  intros d Hd. by apply sqrt_up_ceil_div_le.
Qed.

Lemma sqrt_up_ceil_div_pos a b :
  0 < a → 0 < b → 0 < Z.sqrt_up (ceil_div a b).
Proof.
  intros Ha Hb.
  destruct (Z.le_gt_cases (Z.sqrt_up (ceil_div a b)) 0) as [Hle|]; [|done].
  apply sqrt_up_ceil_div_le in Hle; lia.
Qed.

Lemma insert_by_name_length {A} (x : string * A) l :
  length (insert_by_name x l) = S (length l).
Proof.
  induction l as [|y l IH]; simpl; [done|].
  destruct (String.leb x.1 y.1); simpl; auto.
Qed.

Lemma sort_by_name_length {A} (l : list (string * A)) :
  length (sort_by_name l) = length l.
Proof.
  induction l as [|x l IH]; simpl; [done|].
  by rewrite insert_by_name_length, IH.
Qed.

(** The packer computes [pack] of the first file's size and of the
    sorted names. *)
Lemma create_packed_image_pack pngquant listing :
  outcome (create_packed_image pngquant listing) =
  pack (image_size <$> head listing) (sort_by_name (entry <$> listing)).*1.
Proof.
  unfold create_packed_image.
  rewrite outcome_bind, scan_listing. cbn [scan_standard images app].
  destruct listing as [|file rest]; [done|].
  cbn [reference head fmap option_fmap option_map image_size pack
       standard_height standard_width].
  rewrite outcome_bind. unfold ceil_sqrt_div.
  rewrite !length_fmap.
  destruct (image_width file =? 0); [done|].
  destruct (_ <? 0); [done|].
  rewrite outcome_ret.
  destruct (_ =? 0); [done|].
  unfold enumerate. rewrite foldl_place. by destruct pngquant.
Qed.

(** *** Sorting by name *)

Lemma insert_by_name_Permutation {A} (x : string * A) l :
  insert_by_name x l ≡ₚ x :: l.
Proof.
  induction l as [|y l IH]; simpl; [done|].
  destruct (String.leb x.1 y.1); [done|].
  rewrite IH. apply perm_swap.
Qed.

Lemma sort_by_name_Permutation {A} (l : list (string * A)) :
  sort_by_name l ≡ₚ l.
Proof.
  induction l as [|x l IH]; simpl; [done|].
  by rewrite insert_by_name_Permutation, IH.
Qed.

Lemma name_leb_false {A} (x y : string * A) :
  String.leb x.1 y.1 = false → name_le y x.
Proof.
  intros Hxy. unfold name_le, String.le.
  destruct (String.leb_total x.1 y.1) as [H|H]; [congruence|by rewrite H].
Qed.

Lemma insert_by_name_HdRel {A} (z x : string * A) l :
  name_le z x → HdRel name_le z l → HdRel name_le z (insert_by_name x l).
Proof.
  intros Hzx Hl. destruct l as [|y l]; simpl; [by constructor|].
  destruct (String.leb x.1 y.1); constructor; [done|by inv Hl].
Qed.

Lemma insert_by_name_Sorted {A} (x : string * A) l :
  Sorted name_le l → Sorted name_le (insert_by_name x l).
Proof.
  induction 1 as [|y l Hl IH Hy]; simpl.
  - by repeat constructor.
  - destruct (String.leb x.1 y.1) eqn:Hxy.
    + constructor; [by constructor|].
      constructor. unfold name_le, String.le. by rewrite Hxy.
    + constructor; [done|].
      apply insert_by_name_HdRel; [by apply name_leb_false|done].
Qed.

Lemma sort_by_name_Sorted {A} (l : list (string * A)) :
  Sorted name_le (sort_by_name l).
Proof.
  induction l; simpl; [constructor|by apply insert_by_name_Sorted].
Qed.

(** Stability: entries with one name keep their relative order. *)
Lemma insert_by_name_stable {A} (x : string * A) l name :
  filter (λ e, e.1 = name) (insert_by_name x l) =
  filter (λ e, e.1 = name) (x :: l).
Proof.
  induction l as [|y l IH]; simpl; [done|].
  destruct (String.leb x.1 y.1) eqn:Hxy; [done|].
  rewrite filter_cons, IH, !filter_cons.
  destruct (decide (y.1 = name)) as [Hy|]; [|done].
  destruct (decide (x.1 = name)) as [Hx|]; [|done].
  exfalso. rewrite Hx, <- Hy in Hxy.
  pose proof (reflexivity (R := String.le) y.1) as Hrefl.
  unfold String.le in Hrefl. by rewrite Hxy in Hrefl.
Qed.

Lemma sort_by_name_stable {A} (l : list (string * A)) name :
  filter (λ e, e.1 = name) (sort_by_name l) = filter (λ e, e.1 = name) l.
Proof.
  induction l as [|x l IH]; simpl; [done|].
  by rewrite insert_by_name_stable, !filter_cons, IH.
Qed.

Lemma sorted_names_Sorted {A} (l : list (string * A)) :
  Sorted String.le (sort_by_name l).*1.
Proof.
  apply (Sorted_fmap _ name_le); [done|apply sort_by_name_Sorted].
Qed.

Lemma sorted_names_Permutation {A} (l : list (string * A)) :
  (sort_by_name l).*1 ≡ₚ l.*1.
Proof. by rewrite sort_by_name_Permutation. Qed.

(** The sorted names do not depend on the order of the listing. *)
Lemma sorted_names_unique {A} (l1 l2 : list (string * A)) :
  l1 ≡ₚ l2 → (sort_by_name l1).*1 = (sort_by_name l2).*1.
Proof.
  intros Hperm. apply (Sorted_unique String.le).
  - apply sorted_names_Sorted.
  - apply sorted_names_Sorted.
  - by rewrite !sorted_names_Permutation, Hperm.
Qed.

(** *** The coordinate dictionary *)

Lemma assign_all_snoc m l e :
  assign_all m (l ++ [e]) = <[e.1 := e.2]> (assign_all m l).
Proof. unfold assign_all. by rewrite foldl_app. Qed.

Lemma assign_all_list_to_map l :
  assign_all ∅ l = list_to_map (reverse l).
Proof.
  induction l as [|e l IH] using rev_ind; [done|].
  rewrite assign_all_snoc, reverse_snoc, IH. by destruct e.
Qed.

Lemma assign_all_dom l :
  dom (assign_all ∅ l) = list_to_set l.*1.
Proof.
  rewrite assign_all_list_to_map, dom_list_to_map_L.
  apply set_eq. intros k. rewrite !elem_of_list_to_set, fmap_reverse.
  by rewrite elem_of_reverse.
Qed.

Lemma assign_all_lookup_Some l k v :
  assign_all ∅ l !! k = Some v → (k, v) ∈ l.
Proof.
  rewrite assign_all_list_to_map. intros H%elem_of_list_to_map_2.
  by apply elem_of_reverse.
Qed.

Lemma assign_all_lookup_NoDup l k v :
  NoDup l.*1 → (k, v) ∈ l → assign_all ∅ l !! k = Some v.
Proof.
  intros Hnd Hin. rewrite assign_all_list_to_map.
  apply elem_of_list_to_map_1.
  - by rewrite fmap_reverse, reverse_Permutation.
  - by apply elem_of_reverse.
Qed.

(** The last assignment to a key wins. *)
Lemma assign_all_lookup_last l1 l2 k v :
  k ∉ l2.*1 → assign_all ∅ (l1 ++ (k, v) :: l2) !! k = Some v.
Proof.
  intros Hk. induction l2 as [|e l2 IH] using rev_ind.
  - change [(k, v)] with ([] ++ [(k, v)]). rewrite app_assoc, assign_all_snoc.
    simpl. by rewrite lookup_insert_eq.
  - rewrite fmap_app, not_elem_of_app in Hk. destruct Hk as [Hk1 Hk2].
    change ((k, v) :: l2 ++ [e]) with (((k, v) :: l2) ++ [e]).
    rewrite app_assoc, assign_all_snoc, lookup_insert_ne; [by apply IH|].
    simpl in Hk2. rewrite list_elem_of_singleton in Hk2. done.
Qed.

Lemma assign_all_size l :
  NoDup l.*1 → size (assign_all ∅ l) = length l.
Proof.
  intros Hnd. rewrite <- size_dom, assign_all_dom.
  rewrite size_list_to_set by done. by rewrite length_fmap.
Qed.

Lemma boxes_from_app columns w h k l1 l2 :
  boxes_from columns w h k (l1 ++ l2) =
  boxes_from columns w h k l1 ++ boxes_from columns w h (k + length l1) l2.
Proof.
  revert k. induction l1 as [|x l1 IH]; intros k; simpl.
  - by rewrite Nat.add_0_r.
  - rewrite IH. by replace (S k + length l1)%nat with (k + S (length l1))%nat by lia.
Qed.

(** In the dictionary a name carries the coordinate of the last index
    at which it occurs in the sorted list. *)
Lemma coordinates_lookup columns w h names (i : nat) name :
  names !! i = Some name →
  (∀ j : nat, (i < j)%nat → names !! j ≠ Some name) →
  assign_all ∅ (boxes_from columns w h 0 names) !! name =
  Some (coordinate columns w h i).
Proof.
  intros Hi Hlast.
  pose proof (lookup_lt_Some _ _ _ Hi) as Hlt.
  rewrite <- (take_drop_middle names i name Hi), boxes_from_app. simpl.
  rewrite length_take, Nat.min_l by lia.
  apply assign_all_lookup_last. rewrite boxes_from_names.
  intros [j Hj]%list_elem_of_lookup. rewrite lookup_drop in Hj.
  apply (Hlast (S i + j)%nat); [lia|done].
Qed.

Lemma pack_inv size names p :
  pack size names = Ok p →
  ∃ w h columns,
    size = Some (w, h) ∧ w ≠ 0 ∧ columns ≠ 0 ∧
    columns = Z.sqrt_up (ceil_div (h * Z.of_nat (length names)) w) ∧
    p = Packed w h (assign_all ∅ (boxes_from columns w h 0 names))
          (Sheet (w * columns) (h * ceil_div (Z.of_nat (length names)) columns)
                 (boxes_from columns w h 0 names)).
Proof.
  unfold pack. destruct size as [[w h]|]; [|done].
  destruct (Z.eqb_spec w 0); [done|].
  destruct (_ <? 0); [done|].
  destruct (Z.eqb_spec (Z.sqrt_up (ceil_div (h * Z.of_nat (length names)) w)) 0);
    [done|].
  intros [= <-]. eauto 10.
Qed.

Lemma pack_positive w h names :
  0 < w → 0 < h → names ≠ [] →
  let columns := Z.sqrt_up (ceil_div (h * Z.of_nat (length names)) w) in
  0 < columns ∧
  pack (Some (w, h)) names =
  Ok (Packed w h (assign_all ∅ (boxes_from columns w h 0 names))
        (Sheet (w * columns) (h * ceil_div (Z.of_nat (length names)) columns)
               (boxes_from columns w h 0 names))).
Proof.
  intros Hw Hh Hne columns.
  assert (0 < Z.of_nat (length names)) as Hn by (destruct names; [done|simpl; lia]).
  assert (0 < columns) as Hc by (apply sqrt_up_ceil_div_pos; [nia|done]).
  split; [done|]. unfold pack.
  destruct (Z.eqb_spec w 0); [lia|].
  destruct (Z.ltb_spec (h * Z.of_nat (length names) * w) 0); [nia|].
  fold columns. destruct (Z.eqb_spec columns 0); [lia|done].
Qed.

Lemma coordinates_lookup_inv columns w h names name xy :
  assign_all ∅ (boxes_from columns w h 0 names) !! name = Some xy →
  ∃ i : nat, names !! i = Some name ∧ xy = coordinate columns w h i.
Proof.
  intros Hin%assign_all_lookup_Some.
  apply list_elem_of_lookup in Hin as [i Hi].
  rewrite boxes_from_lookup in Hi.
  destruct (names !! i) as [name'|] eqn:Hname; [|done].
  simpl in Hi. injection Hi as -> <-. eauto.
Qed.

Lemma coordinate_inj columns w h (i j : nat) :
  0 < columns → 0 < w → 0 < h →
  coordinate columns w h i = coordinate columns w h j → i = j.
Proof.
  intros Hc Hw Hh [= Hx Hy].
  apply Z.mul_cancel_r in Hx; [|lia]. apply Z.mul_cancel_r in Hy; [|lia].
  pose proof (Z.div_mod (Z.of_nat i) columns ltac:(lia)) as Hi.
  pose proof (Z.div_mod (Z.of_nat j) columns ltac:(lia)) as Hj.
  rewrite Hx, Hy in Hi. lia.
Qed.

(** With square images every coordinate lies inside the sheet. *)
Lemma coordinate_within_square_sheet columns s count (i : nat) :
  0 < s → 0 < columns → Z.of_nat i < count →
  let '(x, y) := coordinate columns s s i in
  0 ≤ x < s * columns ∧ 0 ≤ y < s * ceil_div count columns.
Proof.
  intros Hs Hc Hi. unfold coordinate.
  pose proof (Z.mod_pos_bound (Z.of_nat i) columns Hc) as Hmod.
  pose proof (Z.div_mod (Z.of_nat i) columns ltac:(lia)) as Hdm.
  assert (0 ≤ Z.of_nat i / columns) as Hq by (apply Z.div_pos; lia).
  assert (Z.of_nat i / columns < ceil_div count columns) as Hrow.
  { destruct (Z.lt_ge_cases (Z.of_nat i / columns) (ceil_div count columns))
      as [|Hge]; [done|].
    apply ceil_div_le in Hge; [nia|done]. }
  split; nia.
Qed.

(** ** Claims about the packer *)

(** C4.  For a listing whose reference image is [w] by [h] (so for [n]
    images of common width [w] and height [h]), the packer computes
    [columns = ceil(sqrt(h * n / w))], saves a sheet of width
    [w * columns] and height [h * ceil(n / columns)], and pastes the
    image at sorted index [i] at [x = (i mod columns) * h],
    [y = floor(i / columns) * w], the coordinate the dictionary records
    for its name.  For four 16x16 images named a, b, c, d the column
    count is 2, the sheet is 32x32 and the coordinates are
    a:(0,0), b:(16,0), c:(0,16), d:(16,16). *)
Theorem packer_layout pngquant :
  (∀ file rest,
     let listing := file :: rest in
     let w := image_width file in
     let h := image_height file in
     let n := Z.of_nat (length listing) in
     let names := (sort_by_name (entry <$> listing)).*1 in
     0 < w → 0 < h →
     ∃ columns rows p,
       outcome (create_packed_image pngquant listing) = Ok p ∧
       is_ceil_sqrt_div (h * n) w columns ∧
       is_ceil_div n columns rows ∧
       result_width (result_image p) = w * columns ∧
       result_height (result_image p) = h * rows ∧
       Sorted String.le names ∧
       names ≡ₚ (λ f, Str.splitext_root (file_name f)) <$> listing ∧
       ∀ (i : nat) name, names !! i = Some name →
         let x := (Z.of_nat i `mod` columns) * h in
         let y := (Z.of_nat i / columns) * w in
         pasted (result_image p) !! i = Some (name, (x, y)) ∧
         ((∀ j : nat, (i < j)%nat → names !! j ≠ Some name) →
          image_coordinates p !! name = Some (x, y)))
  ∧
  (∃ p,
     outcome (create_packed_image pngquant
                [img "c.png" 16 16; img "a.png" 16 16;
                 img "d.png" 16 16; img "b.png" 16 16]) = Ok p ∧
     is_ceil_sqrt_div (16 * 4) 16 2 ∧
     result_width (result_image p) = 32 ∧
     result_height (result_image p) = 32 ∧
     image_coordinates p =
       {[ "a" := (0, 0); "b" := (16, 0); "c" := (0, 16); "d" := (16, 16) ]}).
Proof.
  split.
  - intros file rest listing w h n names Hw Hh.
    pose proof (create_packed_image_pack pngquant listing) as Hrun.
    change (image_size <$> head listing) with (Some (w, h)) in Hrun.
    fold names in Hrun.
    assert (length names = length listing) as Hlen.
    { subst names. by rewrite length_fmap, sort_by_name_length, length_fmap. }
    assert (names ≠ []) as Hne.
    { intros Hnil. rewrite Hnil in Hlen. done. }
    destruct (pack_positive w h names Hw Hh Hne) as [Hc Hpack].
    rewrite Hpack in Hrun. clear Hpack. rewrite Hlen in Hrun, Hc. fold n in Hrun, Hc.
    set (columns := Z.sqrt_up (ceil_div (h * n) w)) in *.
    eexists columns, (ceil_div n columns), _. split; [exact Hrun|]. simpl.
    split; [apply sqrt_up_ceil_div_is_ceil; subst n; [nia|done]|].
    split; [by apply ceil_div_is_ceil|].
    do 2 (split; [done|]).
    split; [apply sorted_names_Sorted|].
    split.
    { subst names. rewrite sorted_names_Permutation.
      by rewrite <- list_fmap_compose. }
    intros i name Hi. split.
    + by rewrite boxes_from_lookup, Hi.
    + intros Hlast. by apply coordinates_lookup.
  - eexists. split; [rewrite create_packed_image_pack; vm_compute; reflexivity|].
    split.
    { split; [lia|]. intros d Hd. nia. }
    do 2 (split; [reflexivity|]).
    vm_compute. reflexivity.
Qed.

Lemma packer_layout_witness :
  0 < 16 ∧
  ∃ columns p,
    outcome (create_packed_image None [img "a.png" 16 16; img "b.png" 16 16]) = Ok p ∧
    is_ceil_sqrt_div (16 * 2) 16 columns ∧
    result_width (result_image p) = 16 * columns.
Proof.
  split; [lia|].
  destruct (proj1 (packer_layout None) (img "a.png" 16 16) [img "b.png" 16 16])
    as (columns & rows & p & Hrun & Hc & _ & Hw & _); [simpl; lia..|].
  exists columns, p. auto.
Defined.

(** C10.  On a directory without image files the packer raises an
    exception ([None * 0] at line 76 is a [TypeError]); it returns no
    sheet and no coordinate map. *)
Theorem packer_rejects_empty_listing pngquant :
  create_packed_image pngquant [] = ([], Raise TypeError).
Proof. by destruct pngquant. Qed.

(** The part of C1 that the code does satisfy: with a reference image of
    positive size and distinct names, the dictionary has one entry per
    image and no two names share a coordinate; when the reference image
    is square, every coordinate lies inside the sheet. *)
Lemma packer_coordinates_sound pngquant file rest :
  let listing := file :: rest in
  let w := image_width file in
  let h := image_height file in
  let stems := (λ f, Str.splitext_root (file_name f)) <$> listing in
  0 < w → 0 < h → NoDup stems →
  ∃ p,
    outcome (create_packed_image pngquant listing) = Ok p ∧
    size (image_coordinates p) = length listing ∧
    dom (image_coordinates p) = list_to_set stems ∧
    (∀ name1 name2 xy,
       image_coordinates p !! name1 = Some xy →
       image_coordinates p !! name2 = Some xy → name1 = name2) ∧
    (w = h →
     ∀ name x y, image_coordinates p !! name = Some (x, y) →
       0 ≤ x < result_width (result_image p) ∧
       0 ≤ y < result_height (result_image p)).
Proof.
  intros listing w h stems Hw Hh Hnd.
  pose proof (create_packed_image_pack pngquant listing) as Hrun.
  change (image_size <$> head listing) with (Some (w, h)) in Hrun.
  set (names := (sort_by_name (entry <$> listing)).*1) in *.
  assert (names ≡ₚ stems) as Hperm.
  { subst names stems. rewrite sorted_names_Permutation.
    by rewrite <- list_fmap_compose. }
  assert (length names = length listing) as Hlen.
  { by rewrite Hperm; subst stems; rewrite length_fmap. }
  assert (names ≠ []) as Hne by (intros Hnil; by rewrite Hnil in Hlen).
  destruct (pack_positive w h names Hw Hh Hne) as [Hc Hpack].
  rewrite Hpack in Hrun. clear Hpack.
  set (columns := Z.sqrt_up (ceil_div (h * Z.of_nat (length names)) w)) in *.
  eexists. split; [exact Hrun|].
  cbn [image_coordinates result_image result_width result_height].
  assert (NoDup names) as Hnd' by (by rewrite Hperm).
  split; [|split; [|split]].
  - rewrite assign_all_size; rewrite ?boxes_from_names, ?boxes_from_length; done.
  - rewrite assign_all_dom, boxes_from_names.
    apply set_eq. intros k. by rewrite !elem_of_list_to_set, Hperm.
  - intros name1 name2 xy H1 H2.
    apply coordinates_lookup_inv in H1 as (i1 & Hi1 & ->).
    apply coordinates_lookup_inv in H2 as (i2 & Hi2 & Heq).
    apply coordinate_inj in Heq; [|done..]. subst i2. congruence.
  - intros Heq name x y Hxy. subst h. rewrite <- Heq in *.
    apply coordinates_lookup_inv in Hxy as (i & Hi & Hxy).
    apply lookup_lt_Some in Hi.
    pose proof (coordinate_within_square_sheet columns w
                  (Z.of_nat (length names)) i Hw Hc ltac:(lia)) as Hin.
    rewrite <- Hxy in Hin. done.
Qed.

(** C1, at the input on which it fails.  Two 16x32 images are
    same-sized, the sheet is 32 wide, and image [b] is placed at
    [x = 32]: outside the sheet.  The x step is the reference height
    where the sheet width is counted in reference widths. *)
Theorem packer_coordinate_outside_sheet pngquant :
  ∃ p,
    outcome (create_packed_image pngquant [img "a.png" 16 32; img "b.png" 16 32]) = Ok p ∧
    result_width (result_image p) = 32 ∧
    result_height (result_image p) = 32 ∧
    image_coordinates p !! "b" = Some (32, 0) ∧
    ¬ (∀ name x y, image_coordinates p !! name = Some (x, y) →
         0 ≤ x < result_width (result_image p) ∧
         0 ≤ y < result_height (result_image p)).
Proof.
  eexists. split; [rewrite create_packed_image_pack; vm_compute; reflexivity|].
  do 3 (split; [reflexivity|]).
  intros Hall. specialize (Hall "b" 32 0 eq_refl). simpl in Hall. lia.
Qed.

(** C8, as the code has it.  Two runs on two enumerations of one set of
    files give the same result -- coordinate map, returned size and
    sheet -- provided the first file listed has the same size in both;
    that is so whenever all images have one size.  Whether [pngquant]
    could be started in either run does not matter. *)
Theorem packer_deterministic pngquant1 pngquant2 l1 l2 :
  l1 ≡ₚ l2 →
  image_size <$> head l1 = image_size <$> head l2 →
  outcome (create_packed_image pngquant1 l1) = outcome (create_packed_image pngquant2 l2).
Proof.
  intros Hperm Hsize. rewrite !create_packed_image_pack, Hsize.
  f_equal. apply sorted_names_unique. by apply fmap_Permutation.
Qed.

Lemma packer_deterministic_witness :
  outcome (create_packed_image None [img "b.png" 16 16; img "a.png" 16 16]) =
  outcome (create_packed_image (Some "pngquant: not found")
             [img "a.png" 16 16; img "b.png" 16 16]).
Proof.
  apply packer_deterministic; [apply perm_swap|reflexivity].
Defined.

(** C8 as stated fails when sizes differ: the reference size is that of
    the file listed first, so the order of the listing shows in the
    coordinates, whatever [pngquant] does. *)
Lemma packer_order_dependent :
  ¬ (∃ pngquant, ∀ l1 l2, l1 ≡ₚ l2 →
       outcome (create_packed_image pngquant l1) = outcome (create_packed_image pngquant l2)).
Proof.
  intros [pngquant Hdet].
  specialize (Hdet [img "a.png" 16 16; img "b.png" 32 32]
                   [img "b.png" 32 32; img "a.png" 16 16] (perm_swap _ _ _)).
  apply (f_equal (λ r, match r with
                       | Ok p => image_coordinates p !! "b"
                       | Raise _ => None
                       end)) in Hdet.
  rewrite !create_packed_image_pack in Hdet. vm_compute in Hdet. discriminate.
Qed.

Lemma same_size_head w h (l1 l2 : list image_file) :
  Forall (λ f, image_size f = (w, h)) l1 → l1 ≡ₚ l2 →
  image_size <$> head l1 = image_size <$> head l2.
Proof.
  intros Hall Hperm.
  assert (Forall (λ f, image_size f = (w, h)) l2) as Hall2 by (by rewrite <- Hperm).
  destruct l1 as [|f1 l1], l2 as [|f2 l2]; simpl.
  - done.
  - by apply Permutation_nil_cons in Hperm.
  - symmetry in Hperm. by apply Permutation_nil_cons in Hperm.
  - apply Forall_cons in Hall as [Hf1 _]. apply Forall_cons in Hall2 as [Hf2 _].
    congruence.
Qed.

(** For images of one size the order of the listing never matters. *)
Lemma packer_deterministic_same_size pngquant1 pngquant2 w h l1 l2 :
  Forall (λ f, image_size f = (w, h)) l1 → l1 ≡ₚ l2 →
  outcome (create_packed_image pngquant1 l1) = outcome (create_packed_image pngquant2 l2).
Proof.
  intros Hall Hperm.
  rewrite !create_packed_image_pack, (same_size_head w h l1 l2 Hall Hperm).
  f_equal. apply sorted_names_unique. by apply fmap_Permutation.
Qed.

(** C9, as the code has it.  The key of an icon in the coordinate map is
    the root [os.path.splitext] gives for its file name, unchanged; an
    item gets an icon exactly when its name, lowercased and stripped of
    everything but [a-z], equals the root of some file. *)
Theorem icon_lookup_key pngquant listing p :
  outcome (create_packed_image pngquant listing) = Ok p →
  dom (image_coordinates p) =
    list_to_set ((λ f, Str.splitext_root (file_name f)) <$> listing) ∧
  ∀ item,
    (∃ x y, outcome (style_of (image_coordinates p) item) = Ok (BackgroundPosition x y))
    ↔ ∃ f, f ∈ listing ∧ Str.splitext_root (file_name f) = simple_name item.
Proof.
  rewrite create_packed_image_pack.
  intros (w & h & columns & _ & _ & _ & _ & ->)%pack_inv. simpl.
  assert (dom (assign_all ∅ (boxes_from columns w h 0
                               (sort_by_name (entry <$> listing)).*1)) =
          list_to_set ((λ f, Str.splitext_root (file_name f)) <$> listing)) as Hdom.
  { rewrite assign_all_dom, boxes_from_names.
    apply set_eq. intros k.
    rewrite !elem_of_list_to_set, sorted_names_Permutation.
    by rewrite <- list_fmap_compose. }
  split; [done|]. intros item.
  assert (is_Some (assign_all ∅ (boxes_from columns w h 0
                     (sort_by_name (entry <$> listing)).*1) !! simple_name item)
          ↔ ∃ f, f ∈ listing ∧ Str.splitext_root (file_name f) = simple_name item)
    as <-.
  { rewrite <- elem_of_dom, Hdom, elem_of_list_to_set, list_elem_of_fmap.
    split; intros (f & H1 & H2); exists f; done. }
  unfold style_of.
  destruct (assign_all _ _ !! simple_name item) as [[x y]|]; simpl.
  - split; [eauto|]. intros _. eauto.
  - split; [by intros (? & ? & ?)|by intros [? ?]].
Qed.

Lemma icon_lookup_key_witness :
  ∃ p,
    outcome (create_packed_image None [img "ironore.png" 16 16]) = Ok p ∧
    dom (image_coordinates p) = {[ "ironore" ]} ∧
    ∃ x y, outcome (style_of (image_coordinates p) "Iron Ore") =
           Ok (BackgroundPosition x y).
Proof.
  assert (outcome (create_packed_image None [img "ironore.png" 16 16]) =
          Ok (Packed 16 16 {[ "ironore" := (0, 0) ]}
                (Sheet 16 16 [("ironore", (0, 0))]))) as Hrun.
  { rewrite create_packed_image_pack. vm_compute. reflexivity. }
  eexists. split; [exact Hrun|].
  destruct (icon_lookup_key _ _ _ Hrun) as [Hdom Hitem]. split.
  - rewrite Hdom. vm_compute. reflexivity.
  - apply Hitem. exists (img "ironore.png" 16 16). split; [by left|reflexivity].
Defined.

(** C9 as stated fails: the key is not normalised.  The icon
    [Iron Ore.png] is stored under [Iron Ore], and the item [Iron Ore],
    whose normalised name [ironore] equals the normalised root, gets no
    icon. *)
Lemma icon_key_not_normalised :
  ¬ (∃ pngquant, ∀ listing p item,
       outcome (create_packed_image pngquant listing) = Ok p →
       dom (image_coordinates p) =
         list_to_set ((λ f, simple_name (Str.splitext_root (file_name f))) <$> listing) ∧
       ((∃ x y, outcome (style_of (image_coordinates p) item) =
                Ok (BackgroundPosition x y))
        ↔ ∃ f, f ∈ listing ∧
               simple_name (Str.splitext_root (file_name f)) = simple_name item)).
Proof.
  intros [pngquant Hclaim].
  assert (outcome (create_packed_image pngquant [img "Iron Ore.png" 16 16]) =
          Ok (Packed 16 16 {[ "Iron Ore" := (0, 0) ]}
                (Sheet 16 16 [("Iron Ore", (0, 0))]))) as Hrun.
  { rewrite create_packed_image_pack. vm_compute. reflexivity. }
  destruct (Hclaim _ _ "Iron Ore" Hrun) as [_ [_ Hmatch]].
  destruct Hmatch as (x & y & Hstyle).
  { exists (img "Iron Ore.png" 16 16). split; [by left|reflexivity]. }
  vm_compute in Hstyle. discriminate.
Qed.

(** ** The validator *)

Lemma bind_ok {A B} out (a : A) (f : A → run B) :
  (out, Ok a) ≫= f = (out ++ output (f a), outcome (f a)).
Proof. unfold mbind, run_bind. by destruct (f a). Qed.

Lemma bind_raise {A B} out e (f : A → run B) :
  (out, Raise e) ≫= f = (out, Raise e).
Proof. done. Qed.

Lemma ret_bind {A B} (a : A) (f : A → run B) : mret a ≫= f = f a.
Proof. unfold mbind, run_bind, mret, run_ret. by destruct (f a). Qed.

Lemma run_eta {A} (m : run A) : m = (output m, outcome m).
Proof. by destruct m. Qed.

Lemma returns_ret {A} (a : A) P : returns (mret a) a P.
Proof. split; [done|constructor]. Qed.

Lemma returns_print msg (P : message → Prop) : P msg → returns (print msg) tt P.
Proof. split; [done|]. by repeat constructor. Qed.

Lemma returns_bind {A B} (m : run A) (f : A → run B) a b P :
  returns m a P → returns (f a) b P → returns (m ≫= f) b P.
Proof.
  intros [Hm Pm] [Hf Pf]. split.
  - by rewrite outcome_bind, Hm.
  - rewrite output_bind, Hm. by apply Forall_app.
Qed.

Lemma returns_for_in {A S} (l : list A) (body : S → A → run S) (I : S → Prop) P s :
  I s →
  (∀ s x, x ∈ l → I s → ∃ s', returns (body s x) s' P ∧ I s') →
  ∃ s', returns (for_in l s body) s' P ∧ I s'.
Proof.
  revert s. induction l as [|x l IH]; intros s Hs Hbody; simpl.
  - exists s. split; [apply returns_ret|done].
  - destruct (Hbody s x) as (s1 & Hx & Hs1); [by left|done|].
    destruct (IH s1 Hs1) as (s2 & Hl & Hs2).
    { intros ????. apply Hbody; [by right|done]. }
    exists s2. split; [|done]. by eapply returns_bind.
Qed.

Lemma returns_for_each {A} (l : list A) (body : A → run unit) P :
  (∀ x, x ∈ l → returns (body x) tt P) → returns (for_each l body) tt P.
Proof.
  intros Hbody.
  destruct (returns_for_in l (λ _ x, body x) (λ _, True) P tt I) as ([] & H & _);
    [|done].
  intros [] x Hx _. exists tt. split; [by apply Hbody|done].
Qed.

Lemma check_key_order_returns calc item i recipe_keys n k v :
  recipe_keys !! n = Some k → valid_keys !! n = Some v →
  returns (check_key_order calc item i recipe_keys n) tt key_message.
Proof.
  intros Hk Hv. unfold check_key_order, item_at. rewrite Hk, Hv.
  rewrite ret_bind.
  rewrite ret_bind.
  destruct (negb _); [by apply returns_print|apply returns_ret].
Qed.

Lemma lint_keys_returns calc item i (r : recipe) :
  (3 ≤ length r)%nat → returns (lint_keys calc item i r) tt key_message.
Proof.
  intros Hlen. unfold lint_keys.
  destruct r as [|[k1 v1] [|[k2 v2] [|[k3 v3] r]]]; simpl in Hlen; try lia.
  eapply returns_bind.
  { apply returns_for_each. intros key _.
    destruct (negb _); [by apply returns_print|apply returns_ret]. }
  eapply returns_bind.
  { apply returns_for_each. intros key _.
    destruct (negb _); [by apply returns_print|apply returns_ret]. }
  eapply returns_bind; [by eapply check_key_order_returns|].
  eapply returns_bind; [by eapply check_key_order_returns|].
  by eapply check_key_order_returns.
Qed.

Lemma lint_keys_all_return calc item (recipes : list recipe) :
  Forall lintable recipes →
  returns (for_each (enumerate recipes)
             (λ '(i, recipe), lint_keys calc item i recipe)) tt key_message.
Proof.
  intros Hall. apply returns_for_each. intros [i r] Hin.
  apply lint_keys_returns.
  unfold enumerate in Hin. apply elem_of_zip_r in Hin.
  rewrite Forall_forall in Hall. by apply Hall.
Qed.

Lemma count_raw_resource_step calc item c (r : recipe) v :
  dict_get r "recipe_type" = Some v →
  count_raw_resource calc item c r =
  if decide (r = raw_resource item) then ([], Ok (c + 1))
  else if decide (v = VStr "Raw Resource")
       then ([InvalidRawResource calc item], Ok c)
       else ([], Ok c).
Proof.
  intros Hv. unfold count_raw_resource, getitem, py_eq. rewrite Hv.
  rewrite ret_bind.
  destruct (decide (r = raw_resource item)) as [->|Hne].
  - simpl in Hv. injection Hv as <-.
    by rewrite !bool_decide_eq_true_2.
  - rewrite (bool_decide_eq_false_2 (VMap r = _)) by congruence.
    by destruct (decide (v = VStr "Raw Resource")) as [->|];
      [rewrite bool_decide_eq_true_2|rewrite bool_decide_eq_false_2].
Qed.

(** The second loop: it counts the recipes equal to [raw_resource] and
    prints one line per Raw Resource recipe of another shape. *)
Lemma count_raw_resource_loop calc item (recipes : list recipe) c :
  Forall lintable recipes →
  for_in recipes c (count_raw_resource calc item) =
  (replicate (length (filter (offending item) recipes)) (InvalidRawResource calc item),
   Ok (c + Z.of_nat (length (filter (λ r, r = raw_resource item) recipes)))).
Proof.
  intros Hall. revert c.
  induction Hall as [|r recipes [_ [v Hv]] _ IH]; intros c; cbn [for_in].
  - simpl. by rewrite Z.add_0_r.
  - rewrite (count_raw_resource_step _ _ _ _ _ Hv), !filter_cons.
    assert (offending item r ↔ v = VStr "Raw Resource" ∧ r ≠ raw_resource item)
      as Hoff.
    { unfold offending, is_raw_resource. rewrite Hv. split; intros [? ?]; split;
        congruence. }
    destruct (decide (r = raw_resource item)) as [Heq|Hne].
    + rewrite bind_ok, IH, decide_False by (rewrite Hoff; intros [_ ?]; done).
      simpl. do 2 f_equal. lia.
    + destruct (decide (v = VStr "Raw Resource")) as [Hv'|Hv'].
      * rewrite bind_ok, IH, decide_True by (by rewrite Hoff). done.
      * rewrite bind_ok, IH, decide_False by (rewrite Hoff; intros [? _]; done).
        done.
Qed.

Lemma raw_resource_split item (recipes : list recipe) :
  length (filter is_raw_resource recipes) =
  (length (filter (λ r, r = raw_resource item) recipes)
   + length (filter (offending item) recipes))%nat.
Proof.
  induction recipes as [|r recipes IH]; [done|].
  rewrite !filter_cons. unfold offending at 1.
  destruct (decide (r = raw_resource item)) as [->|Hne].
  - rewrite decide_True by done. rewrite decide_False by (intros [_ ?]; done).
    simpl. lia.
  - destruct (decide (is_raw_resource r)).
    + rewrite decide_True by done. simpl. lia.
    + rewrite decide_False by (intros [? _]; done). done.
Qed.

Lemma filter_key_messages (out : list message) :
  Forall key_message out → filter (λ m, is_raw_resource_message m = true) out = [].
Proof.
  induction 1 as [|m out Hm _ IH]; [done|].
  rewrite filter_cons, decide_False; [done|]. unfold key_message in Hm. congruence.
Qed.

Lemma filter_replicate_raw calc item k :
  filter (λ m, is_raw_resource_message m = true)
         (replicate k (InvalidRawResource calc item)) =
  replicate k (InvalidRawResource calc item).
Proof. induction k as [|k IH]; [done|]. simpl. by rewrite filter_cons, IH. Qed.

(** The lines [lint_recipe] prints in its raw-resource check, for
    recipes it can index. *)
Lemma lint_recipe_raw_lines calc item (recipes : list recipe) :
  Forall lintable recipes →
  outcome (lint_recipe calc item recipes) = Ok tt ∧
  filter (λ m, is_raw_resource_message m = true) (output (lint_recipe calc item recipes)) =
  replicate (length (filter (offending item) recipes)) (InvalidRawResource calc item)
  ++ match length (filter (λ r, r = raw_resource item) recipes) with
     | O => [MissingRawResource calc item]
     | S O => []
     | _ => [MultipleRawResource calc item]
     end.
Proof.
  intros Hall. unfold lint_recipe.
  destruct (lint_keys_all_return calc item recipes Hall) as [Hkeys Hout].
  rewrite (run_eta (for_each _ _)), Hkeys, bind_ok.
  rewrite (count_raw_resource_loop _ _ _ _ Hall), bind_ok. cbn [outcome output fst snd].
  rewrite !filter_app, filter_key_messages, filter_replicate_raw by done.
  set (n := length (filter (λ r, r = raw_resource item) recipes)).
  destruct n as [|[|n]]; simpl.
  - split; [done|]. f_equal.
  - split; [done|]. f_equal.
  - destruct (Z.ltb_spec 1 (0 + Z.of_nat (S (S n)))); [|lia].
    split; [done|]. f_equal.
Qed.

(** C5, as the code has it.  For a list of recipes that each carry at
    least three keys and a [recipe_type], [lint_recipe] completes and
    its raw-resource check reports: the line of line 169 (MissingRawResource) exactly when no
    recipe equals [{output: 1, recipe_type: "Raw Resource",
    requirements: {item_name: 0}}]; the line of line 166
    (InvalidRawResource) once per recipe whose [recipe_type] is
    "Raw Resource" and whose shape is another; the line of line 171,
    once for the item, exactly when more than one recipe has the
    required shape.  So more than one recipe typed "Raw Resource"
    always yields one of the two latter lines, and the check prints
    nothing else. *)
Theorem raw_resource_cardinality calc item (recipes : list recipe) :
  Forall lintable recipes →
  let lint := lint_recipe calc item recipes in
  let conforming := filter (λ r, r = raw_resource item) recipes in
  let wrong_shape := filter (offending item) recipes in
  outcome lint = Ok tt ∧
  (MissingRawResource calc item ∈ output lint ↔ conforming = []) ∧
  length (filter (λ m, m = InvalidRawResource calc item) (output lint))
    = length wrong_shape ∧
  (MultipleRawResource calc item ∈ output lint ↔ (1 < length conforming)%nat) ∧
  ((1 < length (filter is_raw_resource recipes))%nat →
   InvalidRawResource calc item ∈ output lint ∨
   MultipleRawResource calc item ∈ output lint) ∧
  filter (λ m, is_raw_resource_message m = true) (output lint) =
    replicate (length wrong_shape) (InvalidRawResource calc item)
    ++ match length conforming with
       | O => [MissingRawResource calc item]
       | S O => []
       | _ => [MultipleRawResource calc item]
       end.
Proof.
  intros Hall lint conforming wrong_shape.
  destruct (lint_recipe_raw_lines calc item recipes Hall) as [Hok Hlines].
  fold lint conforming wrong_shape in Hok, Hlines.
  assert (∀ m, is_raw_resource_message m = true →
            m ∈ output lint ↔
            m ∈ replicate (length wrong_shape) (InvalidRawResource calc item)
                ++ match length conforming with
                   | O => [MissingRawResource calc item]
                   | S O => []
                   | _ => [MultipleRawResource calc item]
                   end) as Hmem.
  { intros m Hm. rewrite <- Hlines, list_elem_of_filter. tauto. }
  split; [done|]. split; [|split; [|split; [|split; [|done]]]].
  - rewrite Hmem by done. rewrite elem_of_app, elem_of_replicate.
    destruct conforming as [|r1 [|r2 l]]; simpl; rewrite ?list_elem_of_singleton.
    + split; [done|]. intros _. by right.
    + split; [|done]. intros [[? _]|H]; [done|]. by apply elem_of_nil in H.
    + split; [|done]. intros [[? _]|?]; done.
  - assert (filter (λ m, m = InvalidRawResource calc item) (output lint) =
            filter (λ m, m = InvalidRawResource calc item)
              (filter (λ m, is_raw_resource_message m = true) (output lint))) as ->.
    { generalize (output lint). intros out.
      induction out as [|m out IH]; [done|].
      rewrite !filter_cons.
      destruct (decide (m = InvalidRawResource calc item)) as [->|Hne].
      - rewrite decide_True by done. rewrite filter_cons, decide_True by done.
        by rewrite IH.
      - destruct (decide (is_raw_resource_message m = true)); [|done].
        by rewrite filter_cons, decide_False. }
    rewrite Hlines, filter_app.
    assert (∀ k, filter (λ m, m = InvalidRawResource calc item)
                   (replicate k (InvalidRawResource calc item)) =
                 replicate k (InvalidRawResource calc item)) as ->.
    { intros k. induction k as [|k IH]; [done|].
      simpl. by rewrite filter_cons, decide_True, IH. }
    rewrite length_app, length_replicate.
    destruct (length conforming) as [|[|n]]; simpl; lia.
  - rewrite Hmem by done. rewrite elem_of_app, elem_of_replicate.
    destruct conforming as [|r1 [|r2 l]]; simpl; rewrite ?list_elem_of_singleton.
    + split; [|lia]. intros [[? _]|?]; done.
    + split; [|lia]. intros [[? _]|H]; [done|]. by apply elem_of_nil in H.
    + split; [lia|]. intros _. by right.
  - rewrite (raw_resource_split item). fold conforming wrong_shape. intros Hmany.
    rewrite !Hmem by done. rewrite !elem_of_app, !elem_of_replicate.
    destruct (length wrong_shape) as [|k].
    + right. right. destruct (length conforming) as [|[|n]]; [lia..|].
      by apply list_elem_of_singleton.
    + left. left. split; [done|lia].
Qed.

Lemma surplus_recipes_lintable : Forall lintable surplus_recipes.
Proof.
  unfold surplus_recipes, lintable.
  repeat first
    [ apply Forall_nil_2
    | apply Forall_cons_2
    | split; [simpl; lia|vm_compute; eauto] ].
Qed.

Lemma raw_resource_cardinality_witness :
  Forall lintable surplus_recipes ∧
  filter (λ m, is_raw_resource_message m = true)
         (output (lint_recipe "minecraft" "wood" surplus_recipes)) =
  [InvalidRawResource "minecraft" "wood"; MultipleRawResource "minecraft" "wood"].
Proof.
  split; [exact surplus_recipes_lintable|].
  destruct (raw_resource_cardinality "minecraft" "wood" surplus_recipes
              surplus_recipes_lintable) as (_ & _ & _ & _ & _ & Hlines).
  exact Hlines.
Defined.

(** C5 as stated fails.  The claim asks, when more than one recipe
    matches, for an InvalidRawResource issue once per offending recipe:
    whichever of the matches count as offending, all of them or all
    but one, that is an issue for every match but one at least.  Three
    recipes of the required shape yield one line for the item, the line
    of line 171, and no line of line 166. *)
Lemma raw_resource_issue_not_per_recipe :
  lint_recipe "minecraft" "wood"
    [raw_resource "wood"; raw_resource "wood"; raw_resource "wood"]
  = ([MultipleRawResource "minecraft" "wood"], Ok tt)
  ∧
  ¬ (∀ calc item (recipes : list recipe),
       Forall lintable recipes →
       (1 < length (filter is_raw_resource recipes))%nat →
       (length (filter is_raw_resource recipes) - 1 ≤
        length (filter (λ m, m = InvalidRawResource calc item
                             ∨ m = MultipleRawResource calc item)
                       (output (lint_recipe calc item recipes))))%nat).
Proof.
  split; [vm_compute; reflexivity|].
  intros Hclaim.
  specialize (Hclaim "minecraft" "wood"
                [raw_resource "wood"; raw_resource "wood"; raw_resource "wood"]).
  vm_compute in Hclaim.
  assert (3 - 1 ≤ 1)%nat as Hle; [|lia].
  apply Hclaim; [|lia].
  repeat first
    [ apply Forall_nil_2
    | apply Forall_cons_2
    | split; [simpl; lia|vm_compute; eauto] ].
Qed.

(** *** Requirements *)

Lemma for_each_nil {A} (body : A → run unit) : for_each [] body = mret tt.
Proof. done. Qed.

Lemma for_each_cons {A} (x : A) l (body : A → run unit) :
  for_each (x :: l) body = body x ≫= λ _, for_each l body.
Proof.
  unfold for_each. simpl. destruct (body x) as [out [[]|e]]; reflexivity.
Qed.

Lemma contains_elem_of (l : list string) k : contains l k = true ↔ k ∈ l.
Proof.
  unfold contains. rewrite existsb_exists. split.
  - intros (k' & Hin & Heq). apply String.eqb_eq in Heq as ->.
    by apply list_elem_of_In.
  - intros Hin. exists k. split; [by apply list_elem_of_In|apply String.eqb_refl].
Qed.

Lemma dict_get_NoDup (items : list (string * value)) k v :
  NoDup items.*1 → (k, v) ∈ items → dict_get items k = Some v.
Proof.
  induction items as [|[k' v'] items IH]; intros Hnd Hin; simpl.
  - by apply elem_of_nil in Hin.
  - apply NoDup_cons in Hnd as [Hk' Hnd].
    apply elem_of_cons in Hin as [[= <- <-]|Hin].
    + by rewrite String.eqb_refl.
    + destruct (String.eqb_spec k' k) as [->|_]; [|by apply IH].
      exfalso. apply Hk'. apply list_elem_of_fmap. by exists (k, v).
Qed.

(** The items of a typed requirements mapping. *)
Lemma requirement_entries_items (r : recipe) entries :
  requirement_entries r = Some entries →
  dict_get r "requirements" = Some (VMap ((λ e, (e.1, VInt e.2)) <$> entries)).
Proof.
  unfold requirement_entries.
  destruct (dict_get r "requirements") as [[| |s|items]|]; try done.
  intros Hmap. do 2 f_equal. apply mapM_Some in Hmap.
  induction Hmap as [|[k v] [k' q] items entries Hq _ IH]; [done|].
  rewrite fmap_cons. f_equal; [|done].
  unfold quantity_of in Hq. simpl in Hq. destruct v; simplify_eq. done.
Qed.

Lemma typed_items_keys (entries : list (string * Z)) :
  ((λ e, (e.1, VInt e.2)) <$> entries).*1 = entries.*1.
Proof. induction entries as [|e entries IH]; [done|]. by rewrite !fmap_cons, IH. Qed.

Lemma check_requirement_typed (all : resources) resource (r : recipe) entries k q :
  typed_requirements r entries → (k, q) ∈ entries →
  check_requirement all resource r k =
  (spec_requirement_issue all.*1 resource (k, q), Ok tt).
Proof.
  intros [Hentries Hnd] Hin. unfold check_requirement, spec_requirement_issue.
  cbn [fst snd].
  destruct (decide (k ∈ all.*1)) as [Hk|Hk].
  - apply contains_elem_of in Hk as ->. cbn [negb].
    unfold getitem. rewrite (requirement_entries_items _ _ Hentries).
    rewrite ret_bind. unfold subscript, getitem.
    rewrite (dict_get_NoDup _ k (VInt q)).
    + rewrite ret_bind. simpl.
      destruct (Z.ltb_spec 0 q).
      * by rewrite decide_True.
      * by rewrite decide_False by lia.
    + by rewrite typed_items_keys.
    + by apply (list_elem_of_fmap_2 (λ e, (e.1, VInt e.2)) entries (k, q)).
  - destruct (contains all.*1 k) eqn:Hc; [by apply contains_elem_of in Hc|done].
Qed.

Lemma check_requirements_typed (all : resources) resource (r : recipe) entries es :
  typed_requirements r entries → es ⊆ entries →
  for_each es.*1 (check_requirement all resource r) =
  (es ≫= spec_requirement_issue all.*1 resource, Ok tt).
Proof.
  intros Htyped. induction es as [|[k q] es IH]; intros Hsub; [done|].
  rewrite fmap_cons, for_each_cons. cbn [fst].
  rewrite (check_requirement_typed all resource r entries k q Htyped), bind_ok.
  - rewrite IH; [done|]. intros e He. apply Hsub. by right.
  - apply Hsub. by left.
Qed.

Lemma recipe_requirements_typed (all : resources) resource (r : recipe) entries :
  typed_requirements r entries →
  (requirements ← getitem r "requirements";
   keys ← iterate requirements;
   for_each keys (check_requirement all resource r)) =
  (entries ≫= spec_requirement_issue all.*1 resource, Ok tt).
Proof.
  intros Htyped. pose proof Htyped as [Hentries _].
  unfold getitem. rewrite (requirement_entries_items _ _ Hentries).
  rewrite ret_bind. unfold iterate.
  rewrite ret_bind.
  rewrite typed_items_keys.
  by apply (check_requirements_typed all resource r entries).
Qed.

Lemma item_requirements_typed (all : resources) resource (recipes : list recipe) :
  typed_recipes recipes →
  for_each recipes (λ r,
    requirements ← getitem r "requirements";
    keys ← iterate requirements;
    for_each keys (check_requirement all resource r)) =
  (r ← recipes; entry ← default [] (requirement_entries r);
   spec_requirement_issue all.*1 resource entry, Ok tt).
Proof.
  induction 1 as [|r recipes [entries Htyped] _ IH]; [done|].
  rewrite for_each_cons, (recipe_requirements_typed all resource r entries Htyped).
  rewrite bind_ok, IH, bind_cons. destruct Htyped as [-> _]. done.
Qed.

Lemma ensure_valid_requirements_typed (all items : resources) :
  Forall (λ item, typed_recipes item.2) items →
  for_each items (λ '(resource, recipes),
    for_each recipes (λ r,
      requirements ← getitem r "requirements";
      keys ← iterate requirements;
      for_each keys (check_requirement all resource r))) =
  ('(resource, recipes) ← items; r ← recipes;
   entry ← default [] (requirement_entries r);
   spec_requirement_issue all.*1 resource entry, Ok tt).
Proof.
  induction 1 as [|[resource recipes] items Htyped _ IH]; [done|].
  rewrite for_each_cons, (item_requirements_typed all resource recipes Htyped).
  by rewrite bind_ok, IH, bind_cons.
Qed.

Lemma spec_requirement_issues_elem (all : resources) m :
  m ∈ spec_requirement_issues all ↔
  ∃ resource recipes r entries entry,
    (resource, recipes) ∈ all ∧ r ∈ recipes ∧
    requirement_entries r = Some entries ∧ entry ∈ entries ∧
    m ∈ spec_requirement_issue all.*1 resource entry.
Proof.
  unfold spec_requirement_issues. rewrite list_elem_of_bind. split.
  - intros ([resource recipes] & Hm & Hitem).
    apply list_elem_of_bind in Hm as (r & Hm & Hr).
    apply list_elem_of_bind in Hm as (entry & Hm & Hentry).
    destruct (requirement_entries r) as [entries|] eqn:Hentries;
      [|by apply elem_of_nil in Hentry].
    exists resource, recipes, r, entries, entry. done.
  - intros (resource & recipes & r & entries & entry & Hitem & Hr & Hentries & Hentry & Hm).
    exists (resource, recipes). split; [|done].
    apply list_elem_of_bind. exists r. split; [|done].
    apply list_elem_of_bind. exists entry. split; [done|].
    by rewrite Hentries.
Qed.

(** Requirements.  On a dataset whose recipes all carry a
    [requirements] mapping from names to integers,
    [ensure_valid_requirements] completes and prints, entry by entry over all recipes of all items, an
    UnknownRequirement line naming the target when the target is not an
    item name, and otherwise a PositiveRequirement line exactly when
    the quantity is above zero; it prints nothing else. *)
Theorem requirement_soundness (all : resources) :
  Forall (λ item, typed_recipes item.2) all →
  ensure_valid_requirements all = (spec_requirement_issues all, Ok tt) ∧
  (∀ resource target,
     UnknownRequirement resource target ∈ output (ensure_valid_requirements all) ↔
     (target ∉ all.*1) ∧
     ∃ recipes r entries quantity,
       (resource, recipes) ∈ all ∧ r ∈ recipes ∧
       requirement_entries r = Some entries ∧ (target, quantity) ∈ entries) ∧
  (∀ resource target,
     PositiveRequirement resource target ∈ output (ensure_valid_requirements all) ↔
     (target ∈ all.*1) ∧
     ∃ recipes r entries quantity,
       (resource, recipes) ∈ all ∧ r ∈ recipes ∧
       requirement_entries r = Some entries ∧ (target, quantity) ∈ entries ∧
       0 < quantity).
Proof.
  intros Htyped.
  assert (ensure_valid_requirements all = (spec_requirement_issues all, Ok tt)) as Hrun.
  { unfold ensure_valid_requirements, spec_requirement_issues.
    by apply ensure_valid_requirements_typed. }
  split; [done|]. rewrite Hrun. cbn [output fst].
  split; intros resource target; rewrite spec_requirement_issues_elem.
  - split.
    + intros (res & recipes & r & entries & [k q] & Hitem & Hr & Hentries & Hentry & Hm).
      unfold spec_requirement_issue in Hm. cbn [fst snd] in Hm.
      destruct (decide (k ∈ all.*1)).
      * destruct (decide (0 < q)); [|by apply elem_of_nil in Hm].
        by apply list_elem_of_singleton in Hm.
      * apply list_elem_of_singleton in Hm as [= -> ->]. split; [done|].
        by exists recipes, r, entries, q.
    + intros (Hk & recipes & r & entries & q & Hitem & Hr & Hentries & Hentry).
      exists resource, recipes, r, entries, (target, q).
      repeat (split; [done|]). unfold spec_requirement_issue. cbn [fst snd].
      rewrite decide_False by done. by apply list_elem_of_singleton.
  - split.
    + intros (res & recipes & r & entries & [k q] & Hitem & Hr & Hentries & Hentry & Hm).
      unfold spec_requirement_issue in Hm. cbn [fst snd] in Hm.
      destruct (decide (k ∈ all.*1)).
      * destruct (decide (0 < q)); [|by apply elem_of_nil in Hm].
        apply list_elem_of_singleton in Hm as [= -> ->]. split; [done|].
        by exists recipes, r, entries, q.
      * by apply list_elem_of_singleton in Hm.
    + intros (Hk & recipes & r & entries & q & Hitem & Hr & Hentries & Hentry & Hq).
      exists resource, recipes, r, entries, (target, q).
      repeat (split; [done|]). unfold spec_requirement_issue. cbn [fst snd].
      rewrite !decide_True by done. by apply list_elem_of_singleton.
Qed.

Lemma sample_resources_typed : Forall (λ item, typed_recipes item.2) sample_resources.
Proof.
  unfold sample_resources, typed_recipes.
  repeat first
    [ apply Forall_nil_2
    | apply Forall_cons_2
    | eexists; split; [vm_compute; reflexivity|apply NoDup_singleton] ].
Qed.

Lemma requirement_soundness_witness :
  ensure_valid_requirements sample_resources =
  ([PositiveRequirement "plank" "wood"; UnknownRequirement "plank" "stick"], Ok tt).
Proof.
  exact (proj1 (requirement_soundness sample_resources sample_resources_typed)).
Defined.

(** C6, at inputs on which it fails.  The second recipe of [plank] has
    no [requirements] (or has [requirements: null]): [lint_recipe]
    reports the missing key and goes on, and
    [ensure_valid_requirements] raises at [recipe["requirements"]]
    (line 182) before it reaches the third recipe.  The entry
    [(wood, 3)] of that recipe, with [wood] a known item, gets no
    PositiveRequirement line. *)
Theorem requirement_entry_unreported :
  "wood" ∈ unguarded_resources.*1
  ∧ (∃ recipes r,
       ("plank", recipes) ∈ unguarded_resources ∧ r ∈ recipes ∧
       requirement_entries r = Some [("wood", 3)])
  ∧ ensure_valid_requirements unguarded_resources =
      ([], Raise (KeyError "requirements"))
  ∧ validate "minecraft" unguarded_resources =
      ([MissingKey "minecraft" "plank" 1 "requirements";
        KeyOrder "minecraft" "plank" 1 "requirements"],
       Raise (KeyError "requirements"))
  ∧ (PositiveRequirement "plank" "wood"
       ∉ output (validate "minecraft" unguarded_resources))
  ∧ ensure_valid_requirements unguarded_resources_null = ([], Raise TypeError).
Proof.
  split; [vm_compute; by left|]. split.
  { eexists _, (crafting [("wood", VInt 3)]).
    split; [right; left|split; [do 2 right; left|reflexivity]]. }
  split; [vm_compute; reflexivity|]. split; [vm_compute; reflexivity|].
  split; [|vm_compute; reflexivity].
  assert (output (validate "minecraft" unguarded_resources) =
          [MissingKey "minecraft" "plank" 1 "requirements";
           KeyOrder "minecraft" "plank" 1 "requirements"]) as ->
    by (vm_compute; reflexivity).
  intros Hin. repeat (apply elem_of_cons in Hin as [Hin|Hin]; [discriminate|]).
  by apply elem_of_nil in Hin.
Qed.

(** Well-formed datasets are validated without an exception. *)
Lemma validate_completes calc (all : resources) :
  Forall (λ item, Forall lintable item.2 ∧ typed_recipes item.2) all →
  outcome (validate calc all) = Ok tt.
Proof.
  intros Hall. unfold validate.
  assert (returns (for_each all (λ '(recipe, item_recipes),
                     lint_recipe calc recipe item_recipes)) tt (λ _, True)) as [Hlint _].
  { apply returns_for_each. intros [item recipes] Hin.
    rewrite Forall_forall in Hall. destruct (Hall _ Hin) as [Hlintable _].
    split; [by apply lint_recipe_raw_lines|]. by apply Forall_forall. }
  rewrite outcome_bind, Hlint.
  assert (Forall (λ item, typed_recipes item.2) all) as Htyped.
  { eapply Forall_impl; [exact Hall|]. by intros ? [_ ?]. }
  unfold ensure_valid_requirements.
  by rewrite (ensure_valid_requirements_typed all all Htyped).
Qed.

(** A loop raises as soon as the body raises on one element, whatever
    the state it is reached in. *)
Lemma for_in_raises {A S} (l : list A) (body : S → A → run S) s x :
  x ∈ l → (∀ s, ∃ e, outcome (body s x) = Raise e) →
  ∃ e, outcome (for_in l s body) = Raise e.
Proof.
  intros Hin Hbad. revert s.
  induction l as [|y l IH]; intros s; [by apply elem_of_nil in Hin|].
  cbn [for_in]. rewrite outcome_bind.
  destruct (outcome (body s y)) as [s'|e] eqn:Hy; [|by exists e].
  apply elem_of_cons in Hin as [->|Hin]; [|by apply IH].
  destruct (Hbad s) as [e He]. congruence.
Qed.

Lemma check_key_order_raises calc item i recipe_keys n :
  recipe_keys !! n = None →
  outcome (check_key_order calc item i recipe_keys n) = Raise IndexError.
Proof. intros Hn. unfold check_key_order, item_at. by rewrite Hn. Qed.

Lemma lint_keys_raises calc item i (r : recipe) :
  (length r < 3)%nat → outcome (lint_keys calc item i r) = Raise IndexError.
Proof.
  intros Hlen. unfold lint_keys.
  assert (∀ body : string → run unit,
            (∀ key, returns (body key) tt (λ _, True)) →
            ∀ l, outcome (for_each l body) = Ok tt) as Hloop.
  { intros body Hbody l. by apply (returns_for_each l body (λ _, True)). }
  rewrite outcome_bind, Hloop.
  2:{ intros key. destruct (negb _); [by apply returns_print|apply returns_ret]. }
  rewrite outcome_bind, Hloop.
  2:{ intros key. destruct (negb _); [by apply returns_print|apply returns_ret]. }
  pose proof (check_key_order_returns calc item i r.*1) as Hsome.
  pose proof (check_key_order_raises calc item i r.*1) as Hnone.
  destruct r as [|[k1 v1] [|[k2 v2] [|[k3 v3] r]]]; simpl in Hlen; try lia.
  - rewrite outcome_bind. by rewrite Hnone.
  - rewrite outcome_bind, (proj1 (Hsome 0%nat k1 "output" eq_refl eq_refl)).
    rewrite outcome_bind. by rewrite Hnone.
  - rewrite outcome_bind, (proj1 (Hsome 0%nat k1 "output" eq_refl eq_refl)).
    rewrite outcome_bind, (proj1 (Hsome 1%nat k2 "recipe_type" eq_refl eq_refl)).
    by rewrite Hnone.
Qed.

(** [lint_recipe] returns exactly on the lists of recipes that each
    carry at least three keys and a [recipe_type]; on the others it
    raises. *)
Lemma lint_recipe_returns_iff calc item (recipes : list recipe) :
  outcome (lint_recipe calc item recipes) = Ok tt ↔ Forall lintable recipes.
Proof.
  split; [|intros Hall; by destruct (lint_recipe_raw_lines calc item recipes Hall)].
  intros Hok. apply Forall_forall. intros r Hr.
  destruct (decide (3 ≤ length r)%nat) as [Hlen|Hlen].
  - split; [done|].
    destruct (dict_get r "recipe_type") as [v|] eqn:Hv; [by eexists|].
    exfalso. unfold lint_recipe in Hok. rewrite outcome_bind in Hok.
    destruct (outcome (for_each _ _)); [|done].
    rewrite outcome_bind in Hok.
    destruct (for_in_raises recipes (count_raw_resource calc item) 0 r Hr) as [e He].
    { intros c. exists (KeyError "recipe_type").
      unfold count_raw_resource, getitem. by rewrite Hv. }
    by rewrite He in Hok.
  - exfalso. unfold lint_recipe in Hok. rewrite outcome_bind in Hok.
    apply list_elem_of_lookup in Hr as [i Hi].
    destruct (for_in_raises (enumerate recipes) (λ _ '(i, recipe),
                lint_keys calc item i recipe) tt (i, r)) as [e He].
    { unfold enumerate. apply list_elem_of_lookup. exists i.
      rewrite lookup_zip_with, lookup_seq_lt by (by eapply lookup_lt_Some).
      by rewrite Hi. }
    { intros []. exists IndexError. apply lint_keys_raises. lia. }
    unfold for_each in Hok. by rewrite He in Hok.
Qed.

(** C2, at inputs on which it fails.  A recipe of two keys makes the
    key-order check index past the end of [recipe_keys] once the missing
    key has been reported; a recipe without [recipe_type] makes the
    raw-resource count fail on [recipe['recipe_type']]; a recipe without
    [requirements] makes [ensure_valid_requirements] fail on
    [recipe["requirements"]].  Each run ends in an exception, after the
    lines printed so far. *)
Theorem validator_raises :
  validate "minecraft"
    [("wood", [[("output", VInt 1); ("recipe_type", VStr "Raw Resource")]])]
  = ([MissingKey "minecraft" "wood" 0 "requirements"], Raise IndexError)
  ∧
  validate "minecraft"
    [("wood", [[("output", VInt 1); ("requirements", VMap [("wood", VInt 0)]);
                ("extra_data", VNone)]])]
  = ([MissingKey "minecraft" "wood" 0 "recipe_type";
      KeyOrder "minecraft" "wood" 0 "recipe_type";
      KeyOrder "minecraft" "wood" 0 "requirements"],
     Raise (KeyError "recipe_type"))
  ∧
  validate "minecraft"
    [("wood", [[("output", VInt 1); ("recipe_type", VStr "Crafting");
                ("extra_data", VNone)]])]
  = ([MissingKey "minecraft" "wood" 0 "requirements";
      KeyOrder "minecraft" "wood" 0 "requirements";
      MissingRawResource "minecraft" "wood"],
     Raise (KeyError "requirements")).
Proof. repeat split; vm_compute; reflexivity. Qed.

(** ** The staleness test *)

Lemma node_induction (P : node → Prop) :
  (∀ ctime, P (File ctime)) →
  (∀ entries, Forall (λ e, P e.2) entries → P (Directory entries)) →
  ∀ path, P path.
Proof.
  intros Hfile Hdir. fix IH 1. intros [ctime|entries]; [apply Hfile|].
  apply Hdir. induction entries as [|[name child] entries IHentries].
  - constructor.
  - constructor; [apply IH|apply IHentries].
Qed.

Lemma file_times_cons name child entries :
  file_times (Directory ((name, child) :: entries)) =
  file_times child ++ file_times (Directory entries).
Proof. done. Qed.

Lemma has_empty_directory_cons name child entries :
  has_empty_directory (Directory ((name, child) :: entries)) =
  has_empty_directory child
  || match entries with [] => false | _ => has_empty_directory (Directory entries) end.
Proof. by destruct entries. Qed.

Lemma time_list_of_file recurse name ctime entries :
  time_list_of recurse ((name, File ctime) :: entries) =
  time_list ← time_list_of recurse entries; mret (ctime :: time_list).
Proof. done. Qed.

Lemma time_list_of_directory recurse name children entries :
  time_list_of recurse ((name, Directory children) :: entries) =
  t ← recurse (Directory children);
  time_list ← time_list_of recurse entries; mret (t :: time_list).
Proof. done. Qed.

Section Traversal.

Variable op : Z → Z → Z.
Variable R : relation Z.
Hypothesis R_refl : ∀ a, R a a.
Hypothesis R_trans : ∀ a b c, R a b → R b c → R a c.
Hypothesis op_l : ∀ a b, R (op a b) a.
Hypothesis op_r : ∀ a b, R (op a b) b.
Hypothesis op_choice : ∀ a b, op a b = a ∨ op a b = b.

Lemma foldl_op_extremum t rest : is_extremum R (foldl op t rest) (t :: rest).
Proof.
  revert t. induction rest as [|u rest IH]; intros t; simpl.
  - split; [by left|]. intros ? ->%list_elem_of_singleton. apply R_refl.
  - destruct (IH (op t u)) as [Hin Hle]. split.
    + apply elem_of_cons in Hin as [Heq|Hin]; [|by do 2 right].
      rewrite Heq. destruct (op_choice t u) as [->| ->]; [by left|by right; left].
    + intros x Hx.
      assert (R (foldl op (op t u) rest) (op t u)) as Hhead by (apply Hle; by left).
      apply elem_of_cons in Hx as [->|Hx]; [by eapply R_trans|].
      apply elem_of_cons in Hx as [->|Hx]; [by eapply R_trans|].
      apply Hle. by right.
Qed.

Lemma time_list_of_sound entries :
  Forall (λ e, has_empty_directory e.2 = false →
               match e.2 with
               | File _ => True
               | Directory _ => ∃ t, walk_by op e.2 = ([], Ok t) ∧ is_extremum R t (file_times e.2)
               end) entries →
  Forall (λ e, has_empty_directory e.2 = false) entries →
  ∃ time_list,
    time_list_of (walk_by op) entries = ([], Ok time_list) ∧
    Forall2 (λ e t, is_extremum R t (file_times e.2)) entries time_list.
Proof.
  induction 1 as [|[name child] entries Hchild _ IH]; intros Hnone.
  - exists []. split; [done|constructor].
  - apply Forall_cons in Hnone as [Hc Hnone]. simpl in Hc, Hchild.
    destruct (IH Hnone) as (time_list & Hrun & Htimes).
    destruct child as [ctime|children].
    + exists (ctime :: time_list). rewrite time_list_of_file, Hrun. split; [done|].
      constructor; [|done]. split; [by left|].
      intros ? ->%list_elem_of_singleton. apply R_refl.
    + destruct (Hchild Hc) as (t & Ht & Hext).
      exists (t :: time_list). rewrite time_list_of_directory, Ht, bind_ok, Hrun.
      split; [done|]. by constructor.
Qed.

Lemma extremum_of_entries entries time_list m :
  Forall2 (λ e t, is_extremum R t (file_times e.2)) entries time_list →
  is_extremum R m time_list →
  is_extremum R m (file_times (Directory entries)).
Proof.
  intros Htimes [Hin Hle]. split.
  - clear Hle. induction Htimes as [|[name child] t entries time_list [Ht _] _ IH].
    + by apply elem_of_nil in Hin.
    + rewrite file_times_cons, elem_of_app.
      apply elem_of_cons in Hin as [->|Hin]; [by left|right; by apply IH].
  - intros x Hx.
    assert (∃ t, t ∈ time_list ∧ R t x) as (t & Ht & Htx).
    { clear Hin Hle. induction Htimes as [|[name child] t entries time_list [_ Ht] _ IH].
      - by apply elem_of_nil in Hx.
      - rewrite file_times_cons, elem_of_app in Hx. destruct Hx as [Hx|Hx].
        + exists t. split; [by left|by apply Ht].
        + destruct (IH Hx) as (t' & Ht' & Hle'). exists t'. split; [by right|done]. }
    eapply R_trans; [by apply Hle|done].
Qed.

(** On a tree without empty directories the traversal returns the
    extremum of the creation times of all files below the root. *)
Lemma walk_by_sound path :
  has_empty_directory path = false →
  match path with
  | File _ => True
  | Directory _ => ∃ t, walk_by op path = ([], Ok t) ∧ is_extremum R t (file_times path)
  end.
Proof.
  induction path as [ctime|entries IH] using node_induction; [done|].
  intros Hnone.
  assert (entries ≠ [] ∧ Forall (λ e, has_empty_directory e.2 = false) entries)
    as [Hne Hall].
  { clear IH. destruct entries as [|e entries]; [done|]. split; [done|].
    revert e Hnone. induction entries as [|e' entries IHe]; intros [name child] Hnone.
    - rewrite has_empty_directory_cons, orb_false_r in Hnone. by constructor.
    - rewrite has_empty_directory_cons in Hnone.
      apply orb_false_iff in Hnone as [Hc Hrest].
      constructor; [done|]. by apply IHe. }
  destruct (time_list_of_sound entries IH Hall) as (time_list & Hrun & Htimes).
  destruct time_list as [|t rest].
  { apply Forall2_nil_inv_r in Htimes. done. }
  exists (foldl op t rest). split.
  - cbn [walk_by]. by rewrite Hrun.
  - eapply extremum_of_entries; [done|]. apply foldl_op_extremum.
Qed.

(** An empty directory anywhere makes the traversal raise. *)
Lemma walk_by_empty path :
  has_empty_directory path = true → walk_by op path = ([], Raise ValueError).
Proof.
  induction path as [ctime|entries IH] using node_induction; [done|].
  destruct entries as [|e entries]; [done|]. intros Hempty.
  assert (time_list_of (walk_by op) (e :: entries) = ([], Raise ValueError)) as Hrun.
  { revert e IH Hempty.
    induction entries as [|e' entries IHe]; intros [name child] IH Hempty.
    - rewrite has_empty_directory_cons, orb_false_r in Hempty.
      apply Forall_cons in IH as [IHchild _]. simpl in IHchild.
      destruct child as [ctime|children]; [done|].
      by rewrite time_list_of_directory, (IHchild Hempty).
    - rewrite has_empty_directory_cons in Hempty.
      apply Forall_cons in IH as [IHchild IHrest]. simpl in IHchild.
      destruct child as [ctime|children].
      + simpl in Hempty. rewrite time_list_of_file.
        by rewrite (IHe e' IHrest Hempty).
      + rewrite time_list_of_directory.
        destruct (has_empty_directory (Directory children)) eqn:Hc.
        * by rewrite (IHchild eq_refl).
        * destruct (walk_by_sound (Directory children) Hc) as (t & -> & _).
          rewrite bind_ok. simpl in Hempty.
          by rewrite (IHe e' IHrest Hempty). }
  cbn [walk_by]. by rewrite Hrun.
Qed.

End Traversal.

Lemma time_list_of_ext (f g : node → run Z) entries :
  Forall (λ e, f e.2 = g e.2) entries →
  time_list_of f entries = time_list_of g entries.
Proof.
  induction 1 as [|[name child] entries Hchild _ IH]; [done|].
  destruct child as [ctime|children].
  - by rewrite !time_list_of_file, IH.
  - simpl in Hchild. by rewrite !time_list_of_directory, Hchild, IH.
Qed.

Lemma get_oldest_modified_time_walk path :
  get_oldest_modified_time path = walk_by Z.min path.
Proof.
  induction path as [ctime|entries IH] using node_induction; [done|].
  cbn [get_oldest_modified_time walk_by].
  by rewrite (time_list_of_ext _ _ _ IH).
Qed.

Lemma get_newest_modified_time_walk path :
  get_newest_modified_time path = walk_by Z.max path.
Proof.
  induction path as [ctime|entries IH] using node_induction; [done|].
  cbn [get_newest_modified_time walk_by].
  by rewrite (time_list_of_ext _ _ _ IH).
Qed.

(** On a traversable tree [get_oldest_modified_time] returns the least
    creation time of the files below it. *)
Lemma get_oldest_modified_time_sound path :
  traversable path →
  ∃ t, get_oldest_modified_time path = ([], Ok t) ∧ is_minimum t (file_times path).
Proof.
  intros [Hdir Hnone]. rewrite get_oldest_modified_time_walk.
  pose proof (walk_by_sound Z.min Z.le Z.le_refl Z.le_trans Z.le_min_l Z.le_min_r
                ltac:(lia) path Hnone) as Hwalk.
  by destruct path.
Qed.

(** ... and [get_newest_modified_time] the greatest. *)
Lemma get_newest_modified_time_sound path :
  traversable path →
  ∃ t, get_newest_modified_time path = ([], Ok t) ∧ is_maximum t (file_times path).
Proof.
  intros [Hdir Hnone]. rewrite get_newest_modified_time_walk.
  pose proof (walk_by_sound Z.max (λ m t, t ≤ m) ltac:(simpl; lia) ltac:(simpl; lia)
                Z.le_max_l Z.le_max_r ltac:(lia) path Hnone) as Hwalk.
  by destruct path.
Qed.

Lemma get_oldest_modified_time_empty path :
  has_empty_directory path = true →
  get_oldest_modified_time path = ([], Raise ValueError).
Proof.
  intros Hempty. rewrite get_oldest_modified_time_walk.
  by apply (walk_by_empty Z.min Z.le Z.le_refl Z.le_trans Z.le_min_l Z.le_min_r
              ltac:(lia)).
Qed.

Lemma get_newest_modified_time_empty path :
  has_empty_directory path = true →
  get_newest_modified_time path = ([], Raise ValueError).
Proof.
  intros Hempty. rewrite get_newest_modified_time_walk.
  by apply (walk_by_empty Z.max (λ m t, t ≤ m) ltac:(simpl; lia) ltac:(simpl; lia)
              Z.le_max_l Z.le_max_r ltac:(lia)).
Qed.

(** C3.  Without an output tree the page is built.  With one, and all
    three trees traversable, [oldest_output] is the least creation time
    below the output tree, [newest_resource] and [newest_corelib] the
    greatest below the resource and core trees, and the page is built
    (the calculator is stale) if and only if [oldest_output] is at most
    the maximum of the two and of the creation time of [build.py];
    otherwise the build is skipped. *)
Theorem staleness_decision calc fs :
  (calculator_folder fs = None → create_calculator_page calc fs = ([], Ok Build)) ∧
  (∀ folder,
     calculator_folder fs = Some folder →
     traversable folder → traversable (source_folder fs) → traversable (core fs) →
     ∃ oldest_output newest_resource newest_corelib,
       is_minimum oldest_output (file_times folder) ∧
       is_maximum newest_resource (file_times (source_folder fs)) ∧
       is_maximum newest_corelib (file_times (core fs)) ∧
       let newest := Z.max (Z.max newest_resource newest_corelib) (build_script fs) in
       (outcome (create_calculator_page calc fs) = Ok Build ↔ oldest_output ≤ newest) ∧
       (outcome (create_calculator_page calc fs) = Ok Skip ↔ newest < oldest_output)).
Proof.
  unfold create_calculator_page. split.
  - by intros ->.
  - intros folder -> Hout Hsrc Hcore.
    destruct (get_oldest_modified_time_sound _ Hout) as (oldest & -> & Hmin).
    destruct (get_newest_modified_time_sound _ Hsrc) as (newest_resource & -> & Hmax1).
    destruct (get_newest_modified_time_sound _ Hcore) as (newest_corelib & -> & Hmax2).
    exists oldest, newest_resource, newest_corelib.
    do 3 (split; [done|]). rewrite !bind_ok. cbn [outcome output snd fst].
    destruct (Z.ltb_spec (Z.max (Z.max newest_resource newest_corelib) (build_script fs))
                oldest); simpl; split; split; intros; try done; lia.
Qed.

Lemma staleness_decision_witness :
  outcome (create_calculator_page "minecraft"
             (FileSystem (Some sample_output) sample_source sample_core 10)) = Ok Skip.
Proof.
  destruct (proj2 (staleness_decision "minecraft"
                     (FileSystem (Some sample_output) sample_source sample_core 10))
              sample_output eq_refl)
    as (oldest & newest_resource & newest_corelib & Hmin & Hmax1 & Hmax2 & _ & Hskip);
    [split; [exact I|reflexivity]..|].
  apply Hskip.
  assert (newest_resource ≤ 15) as H1.
  { destruct Hmax1 as [Hin _]. vm_compute in Hin.
    repeat (apply elem_of_cons in Hin as [->|Hin]; [lia|]). by apply elem_of_nil in Hin. }
  assert (newest_corelib ≤ 11) as H2.
  { destruct Hmax2 as [Hin _]. vm_compute in Hin.
    repeat (apply elem_of_cons in Hin as [->|Hin]; [lia|]). by apply elem_of_nil in Hin. }
  assert (18 ≤ oldest) as H3.
  { destruct Hmin as [Hin _]. vm_compute in Hin.
    repeat (apply elem_of_cons in Hin as [->|Hin]; [lia|]). by apply elem_of_nil in Hin. }
  simpl. lia.
Defined.

(** C7.  A tree with an empty directory at or below its root makes both
    [get_oldest_modified_time] and [get_newest_modified_time] raise
    ([min] and [max] of an empty list are a [ValueError]); and when
    such a tree is the resource or the core directory of a calculator
    whose output exists, the staleness test ends in an exception: it
    never answers that the build can be skipped. *)
Theorem empty_directory_is_fatal path :
  has_empty_directory path = true →
  get_oldest_modified_time path = ([], Raise ValueError) ∧
  get_newest_modified_time path = ([], Raise ValueError) ∧
  ∀ calc fs,
    source_folder fs = path ∨ core fs = path →
    outcome (create_calculator_page calc fs) ≠ Ok Skip ∧
    (is_Some (calculator_folder fs) →
     ∃ e, outcome (create_calculator_page calc fs) = Raise e).
Proof.
  intros Hempty.
  split; [by apply get_oldest_modified_time_empty|].
  split; [by apply get_newest_modified_time_empty|].
  intros calc fs Hpath. unfold create_calculator_page.
  destruct (calculator_folder fs) as [folder|].
  2:{ split; [done|]. by intros [? ?]. }
  rewrite outcome_bind.
  destruct (outcome (get_oldest_modified_time folder)) as [oldest|e];
    [|split; [done|]; intros _; by exists e].
  rewrite outcome_bind. destruct Hpath as [Hsource|Hcore].
  - rewrite Hsource, get_newest_modified_time_empty by done.
    split; [done|]. intros _. by eexists.
  - destruct (outcome (get_newest_modified_time (source_folder fs))) as [newest|e];
      [|split; [done|]; intros _; by exists e].
    rewrite outcome_bind, Hcore, get_newest_modified_time_empty by done.
    split; [done|]. intros _. by eexists.
Qed.

Lemma empty_directory_is_fatal_witness :
  get_newest_modified_time sample_empty = ([], Raise ValueError) ∧
  outcome (create_calculator_page "minecraft"
             (FileSystem (Some sample_output) sample_empty sample_core 10)) ≠ Ok Skip.
Proof.
  destruct (empty_directory_is_fatal sample_empty eq_refl) as (_ & Hnewest & Hpage).
  split; [exact Hnewest|].
  exact (proj1 (Hpage "minecraft"
                  (FileSystem (Some sample_output) sample_empty sample_core 10)
                  (or_introl eq_refl))).
Defined.

(** ** Sanity checks of the string functions *)

Example splitext_root_extension : Str.splitext_root "iron_ore.png" = "iron_ore". Proof. reflexivity. Qed.
Example splitext_root_hidden_file : Str.splitext_root ".hidden" = ".hidden". Proof. reflexivity. Qed.
Example splitext_root_last_extension : Str.splitext_root "a.tar.gz" = "a.tar". Proof. reflexivity. Qed.
Example splitext_root_leading_dots : Str.splitext_root "..a.b" = "..a". Proof. reflexivity. Qed.
Example simple_name_strips : simple_name "Iron Ore 2" = "ironore". Proof. reflexivity. Qed.

(** U+0130 and U+212A lower to [i] (followed by U+0307) and to [k];
    U+00C9 lowers to U+00E9, which line 272 removes. *)
Example simple_name_dotted_capital_i :
  simple_name (Str.of_chars (Str.byte 196 :: Str.byte 176 :: Str.chars "stanbul"))
  = "istanbul".
Proof. reflexivity. Qed.

Example simple_name_kelvin_sign :
  simple_name (Str.of_chars (Str.byte 226 :: Str.byte 132 :: Str.byte 170
                               :: Str.chars "elp"))
  = "kelp".
Proof. reflexivity. Qed.

Example simple_name_capital_e_acute :
  simple_name (Str.of_chars (Str.byte 195 :: Str.byte 137 :: Str.chars "clair"))
  = "clair".
Proof. reflexivity. Qed.

(** * Further properties of the code *)

(** ** The packer: warnings, capacity and tiling *)

Lemma scan_listing_output listing sd acc :
  output (for_in listing (Scan (Some sd) acc) scan_file) =
  (λ f, SizeMismatch (file_name f) (standard_image_reference sd))
    <$> filter (λ f, image_size f ≠ (standard_width sd, standard_height sd)) listing.
Proof.
  revert acc. induction listing as [|file listing IH]; intros acc; [done|].
  cbn [for_in]. rewrite output_bind, filter_cons. unfold scan_file at 1 2.
  cbn [scan_standard images]. unfold image_size at 1.
  destruct (Z.eqb_spec (standard_width sd) (image_width file)) as [Hw|Hw];
    destruct (Z.eqb_spec (standard_height sd) (image_height file)) as [Hh|Hh];
    cbn [negb orb].
  - rewrite decide_False by (rewrite Hw, Hh; by intros ?). simpl. apply IH.
  - rewrite decide_True by (intros [= ? ?]; congruence). simpl. by rewrite IH.
  - rewrite decide_True by (intros [= ? ?]; congruence). simpl. by rewrite IH.
  - rewrite decide_True by (intros [= ? ?]; congruence). simpl. by rewrite IH.
Qed.

Lemma insert_by_name_keys {A B} (x : string * A) (y : string * B) l1 l2 :
  x.1 = y.1 → l1.*1 = l2.*1 →
  (insert_by_name x l1).*1 = (insert_by_name y l2).*1.
Proof.
  intros Hxy. revert l2. induction l1 as [|a l1 IH]; intros [|b l2] Hl; try done.
  - simpl. by rewrite Hxy.
  - rewrite !fmap_cons in Hl. injection Hl as Hab Hl. simpl.
    rewrite Hxy, Hab. destruct (String.leb y.1 b.1).
    + rewrite !fmap_cons. by rewrite Hxy, Hab, Hl.
    + rewrite !fmap_cons. f_equal; [done|]. by apply IH.
Qed.

(** The sorted names depend on the names alone. *)
Lemma sorted_names_keys {A B} (l1 : list (string * A)) (l2 : list (string * B)) :
  l1.*1 = l2.*1 → (sort_by_name l1).*1 = (sort_by_name l2).*1.
Proof.
  revert l2. induction l1 as [|a l1 IH]; intros [|b l2] Hl; try done.
  rewrite !fmap_cons in Hl. injection Hl as Hab Hl. simpl.
  apply insert_by_name_keys; [done|by apply IH].
Qed.

Lemma ceil_sqrt_div_output a b : output (ceil_sqrt_div a b) = [].
Proof. unfold ceil_sqrt_div. by repeat case_match. Qed.

(** After the scan the packer prints nothing until, when it has saved
    the sheet, it tries to compress it. *)
Lemma create_packed_image_output pngquant listing :
  output (create_packed_image pngquant listing) =
  output (for_in listing (Scan None []) scan_file) ++
  match outcome (create_packed_image pngquant listing) with
  | Ok _ => output (compress pngquant)
  | Raise _ => []
  end.
Proof.
  unfold create_packed_image. rewrite output_bind, outcome_bind. f_equal.
  destruct (outcome (for_in listing _ _)) as [st|e]; [|done].
  destruct (scan_standard st) as [sd|]; [|done].
  rewrite output_bind, outcome_bind, ceil_sqrt_div_output.
  destruct (outcome (ceil_sqrt_div _ _)) as [columns|e]; [|done].
  destruct (columns =? 0); [done|]. destruct (foldl _ _ _) as [coordinates boxes].
  destruct pngquant; reflexivity.
Qed.

Lemma scan_first_file file rest :
  for_in (file :: rest) (Scan None []) scan_file =
  for_in rest (Scan (Some (Standard (image_width file) (image_height file)
                             (file_name file)))
                    [(Str.splitext_root (file_name file), file)]) scan_file.
Proof.
  change (for_in (file :: rest) (Scan None []) scan_file)
    with (mret (Scan (Some (Standard (image_width file) (image_height file)
                              (file_name file)))
                     [(Str.splitext_root (file_name file), file)])
          ≫= λ s', for_in rest s' scan_file).
  by rewrite ret_bind.
Qed.

(** What the packer prints.  One line per file whose size differs from
    that of the first file listed, in listing order, each naming the
    first file as the reference; then, only when the packer has got as
    far as line 95 and [pngquant] could not be started, the warning of
    lines 97-98; and nothing else.  Neither the sizes of the other
    files nor what [pngquant] does change what the packer returns. *)
Theorem packer_output_lines pngquant file rest :
  output (create_packed_image pngquant (file :: rest)) =
    ((λ f, SizeMismatch (file_name f) (file_name file))
       <$> filter (λ f, image_size f ≠ image_size file) rest)
    ++ match outcome (create_packed_image pngquant (file :: rest)), pngquant with
       | Ok _, Some e => [CompressionFailed e]
       | _, _ => []
       end
  ∧ ∀ pngquant' rest', file_name <$> rest' = file_name <$> rest →
      outcome (create_packed_image pngquant' (file :: rest')) =
      outcome (create_packed_image pngquant (file :: rest)).
Proof.
  split.
  - rewrite create_packed_image_output, scan_first_file, scan_listing_output.
    f_equal. destruct (outcome _); [|done]. by destruct pngquant.
  - intros pngquant' rest' Hnames. rewrite !create_packed_image_pack.
    cbn [head fmap option_fmap option_map]. f_equal.
    apply sorted_names_keys. rewrite <- !list_fmap_compose.
    change (fst ∘ entry) with (Str.splitext_root ∘ file_name).
    rewrite !(list_fmap_compose file_name Str.splitext_root), !fmap_cons.
    by rewrite Hnames.
Qed.

(** A directory of three icons, one of another size, on a machine
    without [pngquant]: the two lines are printed in this order. *)
Example packer_output_lines_example :
  output (create_packed_image (Some "No such file or directory: 'pngquant'")
            [img "a.png" 16 16; img "b.png" 32 32; img "c.png" 16 16]) =
  [SizeMismatch "b.png" "a.png";
   CompressionFailed "No such file or directory: 'pngquant'"].
Proof. vm_compute. reflexivity. Qed.

Lemma sorted_names_length (listing : list image_file) :
  length (sort_by_name (entry <$> listing)).*1 = length listing.
Proof. by rewrite length_fmap, sort_by_name_length, length_fmap. Qed.

(** The run of the packer on a listing whose first file has positive
    size, with the facts that fix the column and row counts. *)
Lemma create_packed_image_positive pngquant file rest :
  let listing := file :: rest in
  let w := image_width file in
  let h := image_height file in
  let n := Z.of_nat (length listing) in
  let names := (sort_by_name (entry <$> listing)).*1 in
  0 < w → 0 < h →
  ∃ columns rows,
    outcome (create_packed_image pngquant listing) =
      Ok (Packed w h (assign_all ∅ (boxes_from columns w h 0 names))
            (Sheet (w * columns) (h * rows) (boxes_from columns w h 0 names))) ∧
    0 < columns ∧ 0 < rows ∧
    h * n ≤ columns * columns * w ∧ (columns - 1) * (columns - 1) * w < h * n ∧
    n ≤ rows * columns ∧ (rows - 1) * columns < n.
Proof.
  intros listing w h n names Hw Hh.
  pose proof (create_packed_image_pack pngquant listing) as Hrun.
  change (image_size <$> head listing) with (Some (w, h)) in Hrun.
  fold names in Hrun.
  pose proof (sorted_names_length listing) as Hlen. fold names in Hlen.
  assert (0 < n) as Hn by (subst n listing; simpl length; lia).
  assert (names ≠ []) as Hne.
  { intros Hnil. rewrite Hnil in Hlen. subst n. simpl in Hlen. lia. }
  destruct (pack_positive w h names Hw Hh Hne) as [Hc Hpack].
  rewrite Hpack in Hrun. clear Hpack. rewrite Hlen in Hrun, Hc. fold n in Hrun, Hc.
  set (columns := Z.sqrt_up (ceil_div (h * n) w)) in *.
  exists columns, (ceil_div n columns). split; [exact Hrun|].
  assert (h * n ≤ columns * columns * w) as Hup.
  { apply (sqrt_up_ceil_div_le (h * n) w columns); [nia|done|lia|]. by subst columns. }
  assert ((columns - 1) * (columns - 1) * w < h * n) as Hlow.
  { destruct (Z.lt_ge_cases ((columns - 1) * (columns - 1) * w) (h * n)) as [|Hge];
      [done|].
    apply (sqrt_up_ceil_div_le (h * n) w (columns - 1)) in Hge; [|nia|done|lia].
    subst columns. lia. }
  assert (n ≤ ceil_div n columns * columns) as Hrows.
  { by apply ceil_div_le. }
  assert ((ceil_div n columns - 1) * columns < n) as Hrows'.
  { destruct (Z.lt_ge_cases ((ceil_div n columns - 1) * columns) n) as [|Hge]; [done|].
    apply ceil_div_le in Hge; [lia|done]. }
  repeat split; try done. nia.
Qed.

(** Sheet shape.  With a reference image of positive size the sheet is
    a grid of [columns] by [rows] cells with room for every image and
    no empty row, and it is close to a square: its height is less than
    its width plus one image height, its width less than its height
    plus two image widths. *)
Theorem packer_sheet_shape pngquant file rest :
  let listing := file :: rest in
  let w := image_width file in
  let h := image_height file in
  let n := Z.of_nat (length listing) in
  0 < w → 0 < h →
  ∃ columns rows p,
    outcome (create_packed_image pngquant listing) = Ok p ∧
    result_width (result_image p) = w * columns ∧
    result_height (result_image p) = h * rows ∧
    0 < columns ∧ 0 < rows ∧
    n ≤ columns * rows ∧ columns * (rows - 1) < n ∧
    result_height (result_image p) < result_width (result_image p) + h ∧
    result_width (result_image p) < result_height (result_image p) + 2 * w.
Proof.
  intros listing w h n Hw Hh.
  destruct (create_packed_image_positive pngquant file rest Hw Hh)
    as (columns & rows & Hrun & Hc & Hr & Hup & Hlow & Hrows & Hrows').
  fold listing w h n in Hrun, Hup, Hlow, Hrows, Hrows'.
  eexists columns, rows, _. split; [exact Hrun|]. cbn [result_image result_width
    result_height].
  do 4 (split; [done|]). split; [lia|]. split; [lia|]. split.
  - assert ((rows - 1) * h < columns * w); [|lia].
    apply (Z.mul_lt_mono_pos_l columns); [done|]. nia.
  - assert ((columns - 2) * w < h * rows); [|lia].
    apply (Z.mul_lt_mono_pos_l columns); [done|]. nia.
Qed.

Lemma packer_sheet_shape_witness :
  ∃ columns rows p,
    outcome (create_packed_image None
               [img "a.png" 16 32; img "b.png" 16 32; img "c.png" 16 32]) = Ok p ∧
    result_width (result_image p) = 16 * columns ∧
    result_height (result_image p) = 32 * rows ∧
    3 ≤ columns * rows.
Proof.
  destruct (packer_sheet_shape None (img "a.png" 16 32) [img "b.png" 16 32; img "c.png" 16 32])
    as (columns & rows & p & Hrun & Hw & Hh & _ & _ & Hn & _); [simpl; lia..|].
  exists columns, rows, p. auto.
Defined.

(** Tiling.  The [i]-th call of [paste] (line 86) pastes the [i]-th
    image of the sorted list at its own size, at the [i]-th coordinate.
    When every image of the directory is square with one side [s], the
    rectangle each image covers lies inside the sheet, and the
    rectangles of two different images do not overlap. *)
Theorem packer_square_images_tile pngquant file rest s :
  let listing := file :: rest in
  let images := sort_by_name (entry <$> listing) in
  0 < s → Forall (λ image, image_size image = (s, s)) listing →
  ∃ p,
    outcome (create_packed_image pngquant listing) = Ok p ∧
    length (pasted (result_image p)) = length listing ∧
    (∀ (i : nat) name image,
       images !! i = Some (name, image) →
       ∃ x y,
         pasted (result_image p) !! i = Some (name, (x, y)) ∧
         0 ≤ x ∧ x + image_width image ≤ result_width (result_image p) ∧
         0 ≤ y ∧ y + image_height image ≤ result_height (result_image p)) ∧
    (∀ (i j : nat) name1 image1 x1 y1 name2 image2 x2 y2,
       i ≠ j →
       images !! i = Some (name1, image1) →
       pasted (result_image p) !! i = Some (name1, (x1, y1)) →
       images !! j = Some (name2, image2) →
       pasted (result_image p) !! j = Some (name2, (x2, y2)) →
       x1 + image_width image1 ≤ x2 ∨ x2 + image_width image2 ≤ x1 ∨
       y1 + image_height image1 ≤ y2 ∨ y2 + image_height image2 ≤ y1).
Proof.
  intros listing images Hs Hall.
  assert (image_width file = s ∧ image_height file = s) as [Hw Hh].
  { apply Forall_cons in Hall as [[= ? ?] _]. done. }
  destruct (create_packed_image_positive pngquant file rest ltac:(lia) ltac:(lia))
    as (columns & rows & Hrun & Hc & Hr & _ & _ & Hrows & Hrows').
  fold listing in Hrun, Hrows, Hrows'. rewrite Hw, Hh in Hrun. fold images in Hrun.
  pose proof (sorted_names_length listing) as Hlen. fold images in Hlen.
  assert (∀ (i : nat) name image,
            images !! i = Some (name, image) →
            (i < length listing)%nat ∧ images.*1 !! i = Some name ∧
            image_width image = s ∧ image_height image = s) as Himage.
  { intros i name image Hi. split; [|split].
    - apply lookup_lt_Some in Hi. by rewrite length_fmap in Hlen; rewrite <- Hlen.
    - by rewrite list_lookup_fmap, Hi.
    - assert (image ∈ listing) as Hin.
      { assert ((name, image) ∈ entry <$> listing) as Hin.
        { rewrite <- (sort_by_name_Permutation (entry <$> listing)).
          by eapply list_elem_of_lookup_2. }
        apply list_elem_of_fmap in Hin as (f & [= _ ->] & Hf). done. }
      rewrite Forall_forall in Hall. specialize (Hall image Hin).
      by injection Hall. }
  assert (∀ (i : nat) name x y,
            boxes_from columns s s 0 images.*1 !! i = Some (name, (x, y)) →
            x = (Z.of_nat i `mod` columns) * s ∧ y = (Z.of_nat i / columns) * s) as Hbox.
  { intros i name x y Hi. rewrite boxes_from_lookup in Hi.
    destruct (images.*1 !! i) as [name'|]; [|done].
    simpl in Hi. unfold coordinate in Hi. injection Hi as _ <- <-. done. }
  eexists. split; [exact Hrun|]. cbn [result_image result_width result_height pasted].
  split; [by rewrite boxes_from_length|]. split.
  - intros i name image Hi. destruct (Himage _ _ _ Hi) as (Hlt & Hname & -> & ->).
    eexists _, _. split.
    { rewrite boxes_from_lookup, Hname. reflexivity. }
    pose proof (Z.mod_pos_bound (Z.of_nat i) columns Hc) as Hmod.
    pose proof (Z.div_mod (Z.of_nat i) columns ltac:(lia)) as Hdm.
    assert (0 ≤ Z.of_nat i / columns) as Hq by (apply Z.div_pos; lia).
    assert (Z.of_nat i / columns < rows) as Hrow by nia.
    rewrite Nat.add_0_l. repeat split; nia.
  - intros i j name1 image1 x1 y1 name2 image2 x2 y2 Hij Hi Hbi Hj Hbj.
    destruct (Himage _ _ _ Hi) as (_ & _ & -> & ->).
    destruct (Himage _ _ _ Hj) as (_ & _ & -> & ->).
    destruct (Hbox _ _ _ _ Hbi) as [-> ->].
    destruct (Hbox _ _ _ _ Hbj) as [-> ->].
    pose proof (Z.div_mod (Z.of_nat i) columns ltac:(lia)) as Hdi.
    pose proof (Z.div_mod (Z.of_nat j) columns ltac:(lia)) as Hdj.
    assert (Z.of_nat i `mod` columns ≠ Z.of_nat j `mod` columns
            ∨ Z.of_nat i / columns ≠ Z.of_nat j / columns) as [Hne|Hne].
    { destruct (decide (Z.of_nat i `mod` columns = Z.of_nat j `mod` columns)) as [He|];
        [|by left].
      right. intros Hq. rewrite He, Hq in Hdi. lia. }
    + destruct (Z.lt_trichotomy (Z.of_nat i `mod` columns) (Z.of_nat j `mod` columns))
        as [?|[?|?]]; [left; nia|done|right; left; nia].
    + destruct (Z.lt_trichotomy (Z.of_nat i / columns) (Z.of_nat j / columns))
        as [?|[?|?]]; [right; right; left; nia|done|right; right; right; nia].
Qed.

Lemma packer_square_images_tile_witness :
  ∃ p,
    outcome (create_packed_image None
               [img "c.png" 16 16; img "a.png" 16 16; img "b.png" 16 16]) = Ok p ∧
    ∃ x y,
      pasted (result_image p) !! 2%nat = Some ("c", (x, y)) ∧
      x + 16 ≤ result_width (result_image p) ∧
      y + 16 ≤ result_height (result_image p).
Proof.
  destruct (packer_square_images_tile None (img "c.png" 16 16)
              [img "a.png" 16 16; img "b.png" 16 16] 16)
    as (p & Hrun & _ & Hinside & _).
  - lia.
  - repeat apply Forall_cons_2; [reflexivity..|apply Forall_nil_2].
  - exists p. split; [exact Hrun|].
    destruct (Hinside 2%nat "c" (img "c.png" 16 16) eq_refl)
      as (x & y & Hbox & _ & Hx & _ & Hy).
    exists x, y. auto.
Defined.

(** With images of different sizes the rectangles do overlap and leave
    the sheet: of four icons, three of 16x16 and [b] of 32x32, [b] is
    pasted at [(16, 0)] on a sheet of 32x32, so it reaches [x = 48] and
    covers the place of [d] at [(16, 16)]. *)
Example packer_mixed_sizes_overlap pngquant :
  ∃ p,
    outcome (create_packed_image pngquant
               [img "a.png" 16 16; img "b.png" 32 32;
                img "c.png" 16 16; img "d.png" 16 16]) = Ok p ∧
    result_width (result_image p) = 32 ∧
    result_height (result_image p) = 32 ∧
    pasted (result_image p) !! 1%nat = Some ("b", (16, 0)) ∧
    pasted (result_image p) !! 3%nat = Some ("d", (16, 16)).
Proof.
  eexists. split; [rewrite create_packed_image_pack; vm_compute; reflexivity|].
  repeat split.
Qed.

Lemma packer_coordinates_sound_witness :
  ∃ p,
    outcome (create_packed_image None [img "b.png" 16 16; img "a.png" 16 16]) = Ok p ∧
    size (image_coordinates p) = 2%nat.
Proof.
  destruct (packer_coordinates_sound None (img "b.png" 16 16) [img "a.png" 16 16])
    as (p & Hrun & Hsize & _).
  - simpl. lia.
  - simpl. lia.
  - vm_compute. apply NoDup_cons. split; [|apply NoDup_singleton].
    intros Hin%list_elem_of_singleton. discriminate.
  - exists p. auto.
Defined.

Lemma size_list_to_set_bound (l : list string) :
  (size (list_to_set l : gset string) ≤ length l)%nat ∧
  (size (list_to_set l : gset string) = length l ↔ NoDup l).
Proof.
  induction l as [|x l [IHle IHeq]]; [split; [done|split; [constructor|done]]|].
  rewrite list_to_set_cons, NoDup_cons. cbn [length].
  destruct (decide (x ∈ l)) as [Hin|Hnin].
  - assert (({[x]} ∪ list_to_set l : gset string) = list_to_set l) as ->.
    { apply set_eq. intros y. rewrite elem_of_union, elem_of_singleton,
        elem_of_list_to_set. split; [by intros [->|?]|by right]. }
    split; [lia|]. split; [lia|]. by intros [? _].
  - rewrite size_union by (apply disjoint_singleton_l; by rewrite elem_of_list_to_set).
    rewrite size_singleton. split; [lia|]. rewrite <- IHeq. split; [|lia].
    intros Heq. split; [done|lia].
Qed.

(** Entries.  The coordinate map never has more entries than there are
    images, and it has one entry per image exactly when no two files
    share a root: of two files [a.png] and [a.jpg] only one keeps an
    entry. *)
Theorem packer_entries_count pngquant listing p :
  outcome (create_packed_image pngquant listing) = Ok p →
  (size (image_coordinates p) ≤ length listing)%nat ∧
  (size (image_coordinates p) = length listing ↔
   NoDup ((λ f, Str.splitext_root (file_name f)) <$> listing)).
Proof.
  rewrite create_packed_image_pack.
  intros (w & h & columns & _ & _ & _ & _ & ->)%pack_inv.
  cbn [image_coordinates].
  rewrite <- size_dom, assign_all_dom, boxes_from_names.
  set (names := (sort_by_name (entry <$> listing)).*1).
  assert (names ≡ₚ (λ f, Str.splitext_root (file_name f)) <$> listing) as Hperm.
  { subst names. rewrite sorted_names_Permutation. by rewrite <- list_fmap_compose. }
  destruct (size_list_to_set_bound names) as [Hle Heq].
  rewrite <- Hperm, <- (sorted_names_length listing). done.
Qed.

Lemma packer_entries_count_witness :
  ∃ p,
    outcome (create_packed_image None [img "a.png" 16 16; img "a.jpg" 16 16]) = Ok p ∧
    (size (image_coordinates p) ≤ 2)%nat.
Proof.
  assert (outcome (create_packed_image None [img "a.png" 16 16; img "a.jpg" 16 16]) =
          Ok (Packed 16 16 {[ "a" := (16, 0) ]}
                (Sheet 32 16 [("a", (0, 0)); ("a", (16, 0))]))) as Hrun.
  { rewrite create_packed_image_pack. vm_compute. reflexivity. }
  eexists. split; [exact Hrun|].
  exact (proj1 (packer_entries_count _ _ _ Hrun)).
Defined.

(** ** Names: [simple_name] and [os.path.splitext] *)

Lemma chars_of_chars l : Str.chars (Str.of_chars l) = l.
Proof. apply String.list_ascii_of_string_of_list_ascii. Qed.

Lemma of_chars_chars s : Str.of_chars (Str.chars s) = s.
Proof. apply String.string_of_list_ascii_of_string. Qed.

Lemma chars_inj s t : Str.chars s = Str.chars t → s = t.
Proof. intros H. by rewrite <- (of_chars_chars s), H, of_chars_chars. Qed.

Lemma lower_char_fixed a : Str.is_upper a = false → Str.lower_char a = a.
Proof. unfold Str.lower_char. by intros ->. Qed.

Lemma is_lower_not_upper a : Str.is_lower a = true → Str.is_upper a = false.
Proof. by destruct a as [[] [] [] [] [] [] [] []]. Qed.

Lemma lower_char_idempotent a : Str.lower_char (Str.lower_char a) = Str.lower_char a.
Proof. by destruct a as [[] [] [] [] [] [] [] []]. Qed.

Lemma lower_chars_plain a l :
  plain a = true → Str.lower_chars (a :: l) = Str.lower_char a :: Str.lower_chars l.
Proof.
  unfold plain. intros [H1 H2]%andb_prop.
  apply negb_true_iff in H1, H2.
  cbn [Str.lower_chars]. rewrite H1, H2. cbn [andb].
  destruct l as [|b [|c l]]; reflexivity.
Qed.

Lemma is_lower_plain a : Str.is_lower a = true → plain a = true.
Proof. by destruct a as [[] [] [] [] [] [] [] []]. Qed.

Lemma lower_char_plain a : plain (Str.lower_char a) = plain a.
Proof. by destruct a as [[] [] [] [] [] [] [] []]. Qed.

Lemma lower_chars_letters l :
  Forall (λ a, Str.is_lower a = true) l → Str.lower_chars l = l.
Proof.
  induction 1 as [|a l Ha _ IH]; [done|].
  rewrite lower_chars_plain by (by apply is_lower_plain).
  by rewrite lower_char_fixed, IH by (by apply is_lower_not_upper).
Qed.

Lemma lower_char_continuation a x :
  continuation x = true → Str.lower_char a = x → a = x.
Proof.
  intros Hx <-. revert Hx.
  by destruct a as [[] [] [] [] [] [] [] []].
Qed.

Lemma lower_chars_head l x :
  continuation x = true → head (Str.lower_chars l) = Some x → head l = Some x.
Proof.
  intros Hx. destruct l as [|a l]; [done|].
  cbn [Str.lower_chars].
  destruct l as [|b l].
  { cbn [head]. intros [= H]. by rewrite (lower_char_continuation a x Hx H). }
  destruct (_ && _).
  { cbn [head]. intros [= <-]. done. }
  destruct l as [|c l].
  { cbn [head]. intros [= H]. by rewrite (lower_char_continuation a x Hx H). }
  destruct (_ && _).
  { cbn [head]. intros [= <-]. done. }
  cbn [head]. intros [= H]. by rewrite (lower_char_continuation a x Hx H).
Qed.

Lemma lower_chars_cons a l :
  Str.lower_chars (a :: l) =
  match lower_special a l with
  | Some (out, rest) => out ++ Str.lower_chars rest
  | None => Str.lower_char a :: Str.lower_chars l
  end.
Proof.
  destruct l as [|b [|c l]]; [done| |].
  - change (Str.lower_chars [a; b]) with
      (if Ascii.eqb a (Str.byte 196) && Ascii.eqb b (Str.byte 176)
       then "i"%char :: Str.byte 204 :: Str.byte 135 :: Str.lower_chars []
       else Str.lower_char a :: Str.lower_chars [b]).
    unfold lower_special.
    by destruct (Ascii.eqb a (Str.byte 196) && Ascii.eqb b (Str.byte 176)).
  - change (Str.lower_chars (a :: b :: c :: l)) with
      (if Ascii.eqb a (Str.byte 196) && Ascii.eqb b (Str.byte 176)
       then "i"%char :: Str.byte 204 :: Str.byte 135 :: Str.lower_chars (c :: l)
       else if Ascii.eqb a (Str.byte 226) && Ascii.eqb b (Str.byte 132)
               && Ascii.eqb c (Str.byte 170)
            then "k"%char :: Str.lower_chars l
            else Str.lower_char a :: Str.lower_chars (b :: c :: l)).
    unfold lower_special.
    destruct (Ascii.eqb a (Str.byte 196) && Ascii.eqb b (Str.byte 176)); [done|].
    by destruct (Ascii.eqb a (Str.byte 226) && Ascii.eqb b (Str.byte 132)
                 && Ascii.eqb c (Str.byte 170)).
Qed.

Lemma lower_special_length a l out rest :
  lower_special a l = Some (out, rest) →
  (length rest < length l)%nat ∧ Forall (λ x, plain x = true ∧ Str.lower_char x = x) out.
Proof.
  unfold lower_special. destruct l as [|b [|c l]]; [done| |].
  - destruct (_ && _); [|done]. intros [= <- <-]. split; [simpl; lia|].
    by repeat constructor.
  - destruct (_ && _).
    + intros [= <- <-]. split; [simpl; lia|]. by repeat constructor.
    + destruct (_ && _); [|done]. intros [= <- <-]. split; [simpl; lia|].
      by repeat constructor.
Qed.

Lemma lower_chars_app_plain out l :
  Forall (λ x, plain x = true ∧ Str.lower_char x = x) out →
  Str.lower_chars (out ++ l) = out ++ Str.lower_chars l.
Proof.
  induction 1 as [|x out [Hx Hfix] _ IH]; [done|].
  cbn [app]. by rewrite lower_chars_plain, Hfix, IH.
Qed.

(** What is not special stays so after its rest has been lowered. *)
Lemma lower_special_None a l :
  lower_special a l = None →
  lower_special (Str.lower_char a) (Str.lower_chars l) = None.
Proof.
  destruct (plain a) eqn:Hplain.
  { intros _. rewrite <- lower_char_plain in Hplain.
    unfold plain in Hplain. apply andb_prop in Hplain as [H1 H2].
    apply negb_true_iff in H1, H2.
    unfold lower_special. rewrite H1, H2. cbn [andb].
    by destruct (Str.lower_chars l) as [|? [|? ?]]. }
  assert (Str.lower_char a = a) as ->.
  { apply lower_char_fixed. revert Hplain. by destruct a as [[] [] [] [] [] [] [] []]. }
  unfold lower_special.
  destruct (Str.lower_chars l) as [|b' m] eqn:Hl; [done|].
  assert (continuation b' = true → head l = Some b') as Hb.
  { intros Hc. apply lower_chars_head; [done|]. by rewrite Hl. }
  destruct (Ascii.eqb a (Str.byte 196) && Ascii.eqb b' (Str.byte 176)) eqn:H1.
  { apply andb_prop in H1 as [Ha Hb']. apply Ascii.eqb_eq in Hb' as ->.
    destruct l as [|b l']; [done|]. specialize (Hb eq_refl). injection Hb as ->.
    by rewrite Ha. }
  destruct m as [|c' m']; [done|].
  destruct (Ascii.eqb a (Str.byte 226) && Ascii.eqb b' (Str.byte 132)
            && Ascii.eqb c' (Str.byte 170)) eqn:H2; [|done].
  apply andb_prop in H2 as [[Ha Hb']%andb_prop Hc'].
  apply Ascii.eqb_eq in Hb' as ->. apply Ascii.eqb_eq in Hc' as ->.
  destruct l as [|b l']; [done|]. specialize (Hb eq_refl). injection Hb as ->.
  rewrite (lower_chars_plain (Str.byte 132)) in Hl by done.
  injection Hl as Hl.
  assert (head l' = Some (Str.byte 170)) as Hc.
  { apply lower_chars_head; [done|]. by rewrite Hl. }
  destruct l' as [|c l'']; [done|]. injection Hc as ->.
  rewrite Ha. cbn [andb Ascii.eqb]. 
  destruct (Ascii.eqb a (Str.byte 196)) eqn:Ha'; [|done].
  apply Ascii.eqb_eq in Ha, Ha'. rewrite Ha in Ha'. vm_compute in Ha'. discriminate.
Qed.

Lemma lower_chars_idempotent l :
  Str.lower_chars (Str.lower_chars l) = Str.lower_chars l.
Proof.
  remember (length l) as n eqn:Hn. revert l Hn.
  induction n as [n IH] using lt_wf_ind. intros l ->.
  destruct l as [|a l1]; [done|].
  rewrite (lower_chars_cons a l1).
  destruct (lower_special a l1) as [[out rest]|] eqn:Hspecial.
  - apply lower_special_length in Hspecial as [Hlt Hout].
    rewrite lower_chars_app_plain by done.
    by rewrite (IH (length rest)) by (simpl; lia || done).
  - rewrite lower_chars_cons, (lower_special_None _ _ Hspecial).
    rewrite lower_char_idempotent.
    by rewrite (IH (length l1)) by (simpl; lia || done).
Qed.

Lemma simple_name_letters s :
  Forall (λ a, Str.is_lower a = true) (Str.chars (simple_name s)).
Proof.
  unfold simple_name, Str.strip_non_lower. rewrite chars_of_chars.
  apply Forall_forall. by intros a [? _]%list_elem_of_filter.
Qed.

Lemma simple_name_of_letters s :
  Forall (λ a, Str.is_lower a = true) (Str.chars s) → simple_name s = s.
Proof.
  intros Hs. unfold simple_name, Str.strip_non_lower, Str.lower.
  rewrite chars_of_chars, lower_chars_letters by done.
  rewrite <- (of_chars_chars s) at 2. f_equal.
  induction Hs as [|a l Ha _ IH]; [done|].
  by rewrite filter_cons, decide_True, IH.
Qed.

(** Normal form.  A simple name consists of the letters [a-z] only;
    normalising is idempotent and blind to case; so two item names that
    differ only in case or in characters outside the letters get one
    simple name. *)
Theorem simple_name_normal_form s :
  Forall (λ a, Str.is_lower a = true) (Str.chars (simple_name s)) ∧
  simple_name (simple_name s) = simple_name s ∧
  simple_name (Str.lower s) = simple_name s.
Proof.
  split; [apply simple_name_letters|]. split.
  - apply simple_name_of_letters, simple_name_letters.
  - unfold simple_name, Str.lower at 1 2.
    by rewrite chars_of_chars, lower_chars_idempotent.
Qed.

(** An icon is used only under a simple name.  A key of the coordinate
    map that has a character outside [a-z] is looked up for no item:
    removing it changes no item's style. *)
Theorem icon_with_other_characters_unused
    (resource_image_coordinates : gmap string (Z * Z)) key item :
  ¬ Forall (λ a, Str.is_lower a = true) (Str.chars key) →
  simple_name item ≠ key ∧
  style_of (delete key resource_image_coordinates) item =
  style_of resource_image_coordinates item.
Proof.
  intros Hkey.
  assert (simple_name item ≠ key) as Hne.
  { intros <-. apply Hkey. apply simple_name_normal_form. }
  split; [done|]. unfold style_of. by rewrite lookup_delete_ne.
Qed.

Lemma icon_with_other_characters_unused_witness :
  style_of (delete "Iron Ore" {[ "Iron Ore" := (0, 0) ]}) "Iron Ore" =
  style_of {[ "Iron Ore" := (0, 0) ]} "Iron Ore".
Proof.
  apply icon_with_other_characters_unused.
  intros Hall. apply Forall_cons in Hall as [Hupper _]. discriminate.
Defined.

Lemma chars_append s t :
  Str.chars (String.append s t) = Str.chars s ++ Str.chars t.
Proof.
  unfold Str.chars. induction s as [|a s IH]; [done|].
  simpl. by rewrite IH.
Qed.

Lemma rfind_from_absent c l i found :
  c ∉ l → Str.rfind_from c l i found = found.
Proof.
  revert i found. induction l as [|a l IH]; intros i found Hc; [done|].
  apply not_elem_of_cons in Hc as [Hne Hc]. simpl.
  destruct (Ascii.eqb_spec a c) as [->|_]; [done|]. by apply IH.
Qed.

Lemma rfind_from_last c l1 l2 i found :
  c ∉ l2 →
  Str.rfind_from c (l1 ++ c :: l2) i found = i + Z.of_nat (length l1).
Proof.
  intros Hc. revert i found. induction l1 as [|a l1 IH]; intros i found.
  - simpl. rewrite Ascii.eqb_refl, rfind_from_absent by done. lia.
  - simpl. rewrite IH. lia.
Qed.

Lemma rfind_from_lower_bound c l i found :
  -1 ≤ found → 0 ≤ i → -1 ≤ Str.rfind_from c l i found.
Proof.
  revert i found. induction l as [|a l IH]; intros i found Hf Hi; [done|].
  simpl. apply IH; [|lia]. destruct (Ascii.eqb a c); lia.
Qed.

Lemma skip_dots_found fuel p i d k :
  0 ≤ i → i ≤ k < d → Str.differs_at k "."%char p = true →
  (Z.to_nat (d - i) ≤ fuel)%nat →
  Str.skip_dots fuel p i d = Str.prefix d p.
Proof.
  revert i. induction fuel as [|fuel IH]; intros i Hi Hk Hdiff Hfuel; [lia|].
  simpl. destruct (Z.ltb_spec i d); [|lia].
  destruct (Str.differs_at i "."%char p) eqn:Hi'; [done|].
  apply IH; [lia| |done|lia].
  assert (i ≠ k) by (intros ->; congruence). lia.
Qed.

(** File names.  [os.path.splitext(file)[0]] leaves a name without a
    dot as it is and strips the last extension of [name.ext]: the key
    of the icon [name.ext] is [name], whenever [name] has a character
    that is not a dot. *)
Theorem splitext_root_strips_extension :
  (∀ p, "."%char ∉ Str.chars p → Str.splitext_root p = p) ∧
  (∀ name ext,
     "/"%char ∉ Str.chars name → "/"%char ∉ Str.chars ext →
     "."%char ∉ Str.chars ext →
     (∃ a, a ∈ Str.chars name ∧ a ≠ "."%char) →
     Str.splitext_root (String.append name (String.append "." ext)) = name).
Proof.
  split.
  - intros p Hdot. unfold Str.splitext_root, Str.rfind.
    rewrite (rfind_from_absent "."%char) by done.
    pose proof (rfind_from_lower_bound "/"%char (Str.chars p) 0 (-1)) as Hsep.
    destruct (Z.ltb_spec (Str.rfind_from "/"%char (Str.chars p) 0 (-1)) (-1)); [lia|done].
  - intros name ext Hsep1 Hsep2 Hdot (a & Ha & Hne).
    unfold Str.splitext_root, Str.rfind.
    assert (Str.chars (String.append name (String.append "." ext)) =
            Str.chars name ++ "."%char :: Str.chars ext) as Hchars.
    { by rewrite !chars_append. }
    rewrite Hchars, (rfind_from_absent "/"%char), rfind_from_last by
      (rewrite ?not_elem_of_app, ?not_elem_of_cons; done).
    destruct (Z.ltb_spec (-1) (0 + Z.of_nat (length (Str.chars name)))); [|lia].
    apply list_elem_of_lookup in Ha as [k Hk].
    pose proof (lookup_lt_Some _ _ _ Hk) as Hlt.
    rewrite (skip_dots_found _ _ _ _ (Z.of_nat k)).
    + unfold Str.prefix. rewrite Hchars.
      replace (Z.to_nat (0 + Z.of_nat (length (Str.chars name))))
        with (length (Str.chars name)) by lia.
      rewrite take_app_length. apply of_chars_chars.
    + lia.
    + lia.
    + unfold Str.differs_at. rewrite Hchars, Nat2Z.id, lookup_app_l, Hk by done.
      by destruct (Ascii.eqb_spec a "."%char).
    + lia.
Qed.

(** ** The validator: key checks, clean datasets, exceptions *)

Lemma for_each_if_print {A} (l : list A) (test : A → bool) (msg : A → message) :
  for_each l (λ x, if test x then print (msg x) else mret tt) =
  (msg <$> filter (λ x, test x = true) l, Ok tt).
Proof.
  induction l as [|x l IH]; [done|].
  rewrite for_each_cons, filter_cons. destruct (test x).
  - rewrite decide_True by done. change (print (msg x)) with ([msg x], Ok tt).
    by rewrite bind_ok, IH.
  - rewrite decide_False by done. by rewrite ret_bind.
Qed.

Lemma check_key_order_run calc item i recipe_keys n k v :
  recipe_keys !! n = Some k → valid_keys !! n = Some v →
  check_key_order calc item i recipe_keys n =
  (if decide (k = v) then [] else [KeyOrder calc item i v], Ok tt).
Proof.
  intros Hk Hv. unfold check_key_order, item_at. rewrite Hk, Hv, !ret_bind.
  destruct (String.eqb_spec k v) as [->|Hne].
  - by rewrite decide_True.
  - by rewrite decide_False.
Qed.

(** What the first loop prints for a recipe of at least three keys. *)
Lemma lint_keys_run calc item i (r : recipe) k1 k2 k3 ks :
  r.*1 = k1 :: k2 :: k3 :: ks →
  lint_keys calc item i r =
  ((MissingKey calc item i <$> filter (λ k, k ∉ r.*1) required_keys)
   ++ (UnknownKey calc item i <$> filter (λ k, k ∉ valid_keys) r.*1)
   ++ (if decide (k1 = "output") then [] else [KeyOrder calc item i "output"])
   ++ (if decide (k2 = "recipe_type") then [] else [KeyOrder calc item i "recipe_type"])
   ++ (if decide (k3 = "requirements") then []
       else [KeyOrder calc item i "requirements"]),
   Ok tt).
Proof.
  intros Hkeys. unfold lint_keys.
  rewrite (for_each_if_print required_keys (λ k, negb (contains r.*1 k))
             (MissingKey calc item i)), bind_ok.
  rewrite (for_each_if_print r.*1 (λ k, negb (contains valid_keys k))
             (UnknownKey calc item i)), bind_ok.
  rewrite (check_key_order_run calc item i r.*1 0%nat k1 "output")
    by (rewrite ?Hkeys; done).
  rewrite bind_ok.
  rewrite (check_key_order_run calc item i r.*1 1%nat k2 "recipe_type")
    by (rewrite ?Hkeys; done).
  rewrite bind_ok.
  rewrite (check_key_order_run calc item i r.*1 2%nat k3 "requirements")
    by (rewrite ?Hkeys; done).
  cbn [output outcome fst snd]. f_equal.
  assert (∀ (l keys : list string),
            filter (λ k, negb (contains keys k) = true) l = filter (λ k, k ∉ keys) l)
    as Hfilter.
  { intros l keys. apply list_filter_iff. intros k.
    rewrite negb_true_iff, <- not_true_iff_false, contains_elem_of. done. }
  by rewrite !Hfilter.
Qed.

(** Key checks.  For a recipe of at least three keys the first loop of
    [lint_recipe] reports a missing key for exactly the required keys
    the recipe lacks, an invalid key for exactly its keys outside
    [output], [recipe_type], [requirements], [extra_data], and a key out
    of order for exactly the positions among the first three that do
    not hold the expected key; it is silent exactly when the first three
    keys are the required ones in order and every key is valid. *)
Theorem lint_keys_reports calc item i (r : recipe) :
  (3 ≤ length r)%nat →
  outcome (lint_keys calc item i r) = Ok tt ∧
  (∀ k, MissingKey calc item i k ∈ output (lint_keys calc item i r) ↔
        k ∈ required_keys ∧ k ∉ r.*1) ∧
  (∀ k, UnknownKey calc item i k ∈ output (lint_keys calc item i r) ↔
        k ∈ r.*1 ∧ k ∉ valid_keys) ∧
  (∀ k, KeyOrder calc item i k ∈ output (lint_keys calc item i r) ↔
        ∃ n : nat, required_keys !! n = Some k ∧ r.*1 !! n ≠ Some k) ∧
  (output (lint_keys calc item i r) = [] ↔
   take 3 r.*1 = required_keys ∧ Forall (λ k, k ∈ valid_keys) r.*1).
Proof.
  intros Hlen.
  destruct r as [|[k1 v1] [|[k2 v2] [|[k3 v3] r]]]; simpl in Hlen; try lia.
  set (rec := (k1, v1) :: (k2, v2) :: (k3, v3) :: r).
  rewrite (lint_keys_run calc item i rec k1 k2 k3 r.*1) by done.
  cbn [output outcome fst snd].
  set (missing := MissingKey calc item i <$> _).
  set (unknown := UnknownKey calc item i <$> _).
  set (order := (if decide (k1 = "output") then _ else _) ++ _).
  assert (∀ k, KeyOrder calc item i k ∈ order ↔
               ∃ n : nat, required_keys !! n = Some k ∧ rec.*1 !! n ≠ Some k) as Horder.
  { intros k. subst order. rewrite !elem_of_app. split.
    - intros [H|[H|H]].
      + destruct (decide (k1 = "output")); [by apply elem_of_nil in H|].
        apply list_elem_of_singleton in H as [= ->]. exists 0%nat. split; [done|].
        simpl. congruence.
      + destruct (decide (k2 = "recipe_type")); [by apply elem_of_nil in H|].
        apply list_elem_of_singleton in H as [= ->]. exists 1%nat. split; [done|].
        simpl. congruence.
      + destruct (decide (k3 = "requirements")); [by apply elem_of_nil in H|].
        apply list_elem_of_singleton in H as [= ->]. exists 2%nat. split; [done|].
        simpl. congruence.
    - intros ([|[|[|n]]] & Hk & Hne); simpl in Hk, Hne; [| | |done];
        injection Hk as <-.
      + left. rewrite decide_False by congruence. by apply list_elem_of_singleton.
      + right. left. rewrite decide_False by congruence.
        by apply list_elem_of_singleton.
      + right. right. rewrite decide_False by congruence.
        by apply list_elem_of_singleton. }
  assert (∀ m, m ∈ order → ∃ k, m = KeyOrder calc item i k) as Horder'.
  { intros m. subst order. rewrite !elem_of_app.
    intros [H|[H|H]]; repeat case_decide; try (by apply elem_of_nil in H);
      apply list_elem_of_singleton in H; eauto. }
  split; [done|]. split; [|split; [|split]].
  - intros k. rewrite !elem_of_app. subst missing. split.
    + intros [H|[H|H]].
      * apply list_elem_of_fmap in H as (k' & [= ->] & H).
        apply list_elem_of_filter in H. tauto.
      * apply list_elem_of_fmap in H as (k' & [=] & _).
      * by destruct (Horder' _ H).
    + intros [Hk Hnot]. left. apply list_elem_of_fmap. exists k. split; [done|].
      by apply list_elem_of_filter.
  - intros k. rewrite !elem_of_app. subst unknown. split.
    + intros [H|[H|H]].
      * apply list_elem_of_fmap in H as (k' & [=] & _).
      * apply list_elem_of_fmap in H as (k' & [= ->] & H).
        apply list_elem_of_filter in H. tauto.
      * by destruct (Horder' _ H).
    + intros [Hk Hnot]. right. left. apply list_elem_of_fmap. exists k.
      split; [done|]. by apply list_elem_of_filter.
  - intros k. rewrite <- Horder, !elem_of_app. split; [|tauto].
    intros [H|[H|H]]; [| |done].
    + by apply list_elem_of_fmap in H as (k' & [=] & _).
    + by apply list_elem_of_fmap in H as (k' & [=] & _).
  - split.
    + intros Hnil.
      apply app_eq_nil in Hnil as [Hmissing Hrest].
      apply app_eq_nil in Hrest as [Hunknown Horder_nil].
      split.
      * subst order. cbn [fmap list_fmap take rec]. unfold required_keys.
        apply app_eq_nil in Horder_nil as [H1 H23].
        apply app_eq_nil in H23 as [H2 H3].
        repeat case_decide; try done. by subst.
      * apply Forall_forall. intros k Hk.
        destruct (decide (k ∈ valid_keys)) as [|Hbad]; [done|].
        assert (UnknownKey calc item i k ∈ unknown) as Hin.
        { apply list_elem_of_fmap. exists k. split; [done|].
          by apply list_elem_of_filter. }
        rewrite Hunknown in Hin. by apply elem_of_nil in Hin.
    + intros [Htake Hvalid].
      injection Htake as -> -> ->.
      assert (missing = []) as ->.
      { subst missing. by vm_compute. }
      assert (unknown = []) as ->.
      { subst unknown. rewrite (elem_of_nil_inv (filter _ _)); [done|].
        intros k [Hbad Hk]%list_elem_of_filter.
        rewrite Forall_forall in Hvalid. by apply Hbad, Hvalid. }
      subst order. by rewrite !decide_True.
Qed.

Lemma lint_keys_reports_witness :
  outcome (lint_keys "minecraft" "plank" 1 (crafting [("wood", VInt (-4))])) = Ok tt.
Proof.
  apply (lint_keys_reports "minecraft" "plank" 1 (crafting [("wood", VInt (-4))])).
  simpl. lia.
Defined.

Lemma silent_bind {A B} (a : A) (f : A → run B) :
  (([], Ok a) : run A) ≫= f = f a.
Proof. apply ret_bind. Qed.

Lemma for_each_silent {A} (l : list A) (body : A → run unit) :
  Forall (λ x, body x = ([], Ok tt)) l → for_each l body = ([], Ok tt).
Proof.
  induction 1 as [|x l Hx _ IH]; [done|].
  by rewrite for_each_cons, Hx, silent_bind, IH.
Qed.

Lemma lint_keys_silent calc item i (r : recipe) :
  take 3 r.*1 = required_keys → Forall (λ k, k ∈ valid_keys) r.*1 →
  lint_keys calc item i r = ([], Ok tt).
Proof.
  intros Htake Hvalid.
  destruct r as [|[k1 v1] [|[k2 v2] [|[k3 v3] r]]]; try done.
  injection Htake as -> -> ->.
  rewrite (lint_keys_run calc item i _ "output" "recipe_type" "requirements" r.*1)
    by done.
  rewrite (elem_of_nil_inv (filter (λ k, k ∉ valid_keys) _)).
  2:{ intros k [Hbad Hk]%list_elem_of_filter.
      rewrite Forall_forall in Hvalid. by apply Hbad, Hvalid. }
  rewrite (elem_of_nil_inv (filter _ required_keys)).
  2:{ intros k [Hbad Hk]%list_elem_of_filter. apply Hbad.
      unfold required_keys in Hk. rewrite !fmap_cons. cbn [fst].
      repeat (apply elem_of_cons in Hk as [->|Hk]; [set_solver|]).
      by apply elem_of_nil in Hk. }
  done.
Qed.

Lemma dict_get_is_Some (d : list (string * value)) k :
  k ∈ d.*1 → is_Some (dict_get d k).
Proof.
  induction d as [|[k' v] d IH]; intros Hk; [by apply elem_of_nil in Hk|].
  simpl. destruct (String.eqb_spec k' k) as [|Hne]; [by eexists|].
  apply IH. rewrite fmap_cons in Hk. apply elem_of_cons in Hk as [Hk|Hk]; [|done].
  simpl in Hk. congruence.
Qed.

Lemma clean_recipe_lintable names item (r : recipe) :
  clean_recipe names item r → lintable r.
Proof.
  intros (Htake & _). destruct r as [|[k1 v1] [|[k2 v2] [|[k3 v3] r]]]; try done.
  injection Htake as -> -> ->. split; [simpl; lia|].
  apply dict_get_is_Some. rewrite !fmap_cons. set_solver.
Qed.

Lemma lint_recipe_clean calc names (item : string * list recipe) :
  clean_item names item → lint_recipe calc item.1 item.2 = ([], Ok tt).
Proof.
  destruct item as [item recipes]. intros [Hclean Hone]. cbn [fst snd] in *.
  unfold lint_recipe.
  rewrite (for_each_silent (enumerate recipes)).
  2:{ apply Forall_forall. intros [i r] Hin.
      unfold enumerate in Hin. apply elem_of_zip_r in Hin.
      rewrite Forall_forall in Hclean. destruct (Hclean r Hin) as (? & ? & _).
      by apply lint_keys_silent. }
  rewrite silent_bind, count_raw_resource_loop.
  2:{ eapply Forall_impl; [exact Hclean|]. apply clean_recipe_lintable. }
  rewrite Hone, (elem_of_nil_inv (filter (offending item) recipes)).
  - done.
  - intros r [[Hraw Hne] Hin]%list_elem_of_filter.
    rewrite Forall_forall in Hclean. destruct (Hclean r Hin) as (_ & _ & _ & Hshape).
    by apply Hne, Hshape.
Qed.

(** Clean datasets.  On a dataset in which every recipe has the keys in
    order, requirements that name items of the dataset with quantities
    that are not positive, and every item exactly one recipe of the
    required "Raw Resource" shape and no other recipe of that type, the
    validator prints nothing and returns. *)
Theorem validate_clean calc (all : resources) :
  Forall (clean_item all.*1) all → validate calc all = ([], Ok tt).
Proof.
  intros Hclean. unfold validate.
  rewrite (for_each_silent all).
  2:{ eapply Forall_impl; [exact Hclean|]. intros [item recipes] Hitem.
      by apply (lint_recipe_clean calc all.*1 (item, recipes)). }
  rewrite silent_bind. unfold ensure_valid_requirements.
  rewrite (ensure_valid_requirements_typed all all).
  2:{ eapply Forall_impl; [exact Hclean|]. intros [item recipes] [Hrecipes _].
      eapply Forall_impl; [exact Hrecipes|].
      intros r (_ & _ & (entries & Htyped & _) & _). by exists entries. }
  f_equal. apply elem_of_nil_inv. intros m Hm.
  change (m ∈ spec_requirement_issues all) in Hm.
  apply spec_requirement_issues_elem in Hm
    as (resource & recipes & r & entries & [k q] & Hitem & Hr & Hentries & Hentry & Hm).
  rewrite Forall_forall in Hclean. destruct (Hclean _ Hitem) as [Hrecipes _].
  rewrite Forall_forall in Hrecipes.
  destruct (Hrecipes r Hr) as (_ & _ & (entries' & [Hentries' _] & Hgood) & _).
  assert (entries' = entries) as -> by congruence.
  rewrite Forall_forall in Hgood. destruct (Hgood _ Hentry) as [Hknown Hq].
  unfold spec_requirement_issue in Hm. cbn [fst snd] in *.
  rewrite decide_True in Hm by done. rewrite decide_False in Hm by lia.
  by apply elem_of_nil in Hm.
Qed.

Lemma clean_resources_clean : Forall (clean_item clean_resources.*1) clean_resources.
Proof.
  assert (∀ requirements,
            Forall (λ k, k ∈ valid_keys) (crafting requirements).*1) as Hkeys.
  { intros requirements. unfold valid_keys, required_keys, optional_keys.
    apply Forall_forall. intros k Hk. apply elem_of_app. by left. }
  assert (∀ (names : list string) item,
            item ∈ names → clean_recipe names item (raw_resource item)) as Hraw.
  { intros names item Hitem. split; [done|]. split; [apply (Hkeys [(item, VInt 0)])|].
    split; [|done]. exists [(item, 0)]. split.
    - split; [done|apply NoDup_singleton].
    - apply Forall_cons_2; [|apply Forall_nil_2]. split; simpl; [done|lia]. }
  unfold clean_resources. repeat apply Forall_cons_2; [| |apply Forall_nil_2].
  - split; [|by vm_compute]. cbn [fst snd].
    apply Forall_cons_2; [|apply Forall_nil_2]. apply Hraw. set_solver.
  - split; [|by vm_compute]. cbn [fst snd].
    repeat apply Forall_cons_2; [| |apply Forall_nil_2].
    + apply Hraw. set_solver.
    + split; [done|]. split; [apply Hkeys|].
      split; [|intros [=]]. exists [("wood", -4)]. split.
      * split; [done|apply NoDup_singleton].
      * apply Forall_cons_2; [|apply Forall_nil_2]. split; simpl; [set_solver|lia].
Qed.

Lemma validate_clean_witness :
  validate "minecraft" clean_resources = ([], Ok tt).
Proof. exact (validate_clean "minecraft" clean_resources clean_resources_clean). Defined.

Lemma validate_completes_witness :
  outcome (validate "minecraft" sample_resources) = Ok tt.
Proof.
  apply validate_completes. unfold sample_resources.
  repeat apply Forall_cons_2; try apply Forall_nil_2; cbn [snd];
    (split; [|unfold typed_recipes;
               repeat first
                 [ apply Forall_nil_2
                 | apply Forall_cons_2
                 | eexists; split; [vm_compute; reflexivity|apply NoDup_singleton] ]]);
    repeat apply Forall_cons_2; try apply Forall_nil_2;
    (split; [simpl; lia|simpl; eauto]).
Defined.

(** Exceptions of the requirement check.  If some recipe has no
    [requirements], or has [None] or an integer there,
    [ensure_valid_requirements] ends in an exception instead of
    returning. *)
Theorem ensure_valid_requirements_raises (all : resources) resource recipes (r : recipe) :
  (resource, recipes) ∈ all → r ∈ recipes →
  (∀ v, dict_get r "requirements" = Some v → v = VNone ∨ ∃ z, v = VInt z) →
  ∃ e, outcome (ensure_valid_requirements all) = Raise e.
Proof.
  intros Hitem Hr Hbad. unfold ensure_valid_requirements, for_each.
  apply (for_in_raises all _ tt (resource, recipes) Hitem). intros [].
  apply (for_in_raises recipes _ tt r Hr). intros [].
  unfold getitem. destruct (dict_get r "requirements") as [v|]; [|by eexists].
  rewrite ret_bind.
  destruct (Hbad v eq_refl) as [->|[z ->]]; by eexists.
Qed.

Lemma ensure_valid_requirements_raises_witness :
  ∃ e, outcome (ensure_valid_requirements
                  [("wood", [[("output", VInt 1); ("recipe_type", VStr "Crafting");
                              ("requirements", VNone)]])]) = Raise e.
Proof.
  eapply ensure_valid_requirements_raises.
  - by left.
  - by left.
  - intros v [= <-]. by left.
Defined.

(** ** The staleness test: what it prints and what it depends on *)

Lemma time_list_of_silent recurse entries :
  Forall (λ e, output (recurse e.2) = []) entries →
  output (time_list_of recurse entries) = [].
Proof.
  induction 1 as [|[name child] entries Hchild _ IH]; [done|].
  destruct child as [ctime|children].
  - rewrite time_list_of_file, output_bind, IH. by destruct (outcome _).
  - simpl in Hchild. rewrite time_list_of_directory, output_bind, Hchild.
    destruct (outcome _); [|done]. rewrite output_bind, IH. by destruct (outcome _).
Qed.

Lemma walk_by_silent op path : output (walk_by op path) = [].
Proof.
  induction path as [ctime|entries IH] using node_induction; [done|].
  cbn [walk_by]. rewrite output_bind, (time_list_of_silent _ _ IH).
  destruct (outcome _) as [[|t rest]|e]; done.
Qed.

(** The skip line.  Lines 230-244 print the line "Skipping ..." when
    they end the function early, and nothing in any other case, be it
    a build or an exception. *)
Theorem skip_line_iff_skipped calc fs :
  (outcome (create_calculator_page calc fs) = Ok Skip →
   output (create_calculator_page calc fs) = [Skipping calc]) ∧
  (outcome (create_calculator_page calc fs) ≠ Ok Skip →
   output (create_calculator_page calc fs) = []).
Proof.
  unfold create_calculator_page.
  destruct (calculator_folder fs) as [folder|]; [|by split].
  rewrite !outcome_bind, !output_bind.
  rewrite get_oldest_modified_time_walk, !get_newest_modified_time_walk,
    !walk_by_silent.
  destruct (outcome (walk_by Z.min folder)) as [oldest|e]; [|by split].
  rewrite !outcome_bind, !output_bind, !walk_by_silent.
  destruct (outcome (walk_by Z.max (source_folder fs))) as [newest1|e]; [|by split].
  rewrite !outcome_bind, !output_bind, !walk_by_silent.
  destruct (outcome (walk_by Z.max (core fs))) as [newest2|e]; [|by split].
  cbn zeta. by destruct (_ <? _).
Qed.

Lemma is_minimum_unique m1 m2 l1 l2 :
  l1 ≡ₚ l2 → is_minimum m1 l1 → is_minimum m2 l2 → m1 = m2.
Proof.
  intros Hperm [Hin1 Hle1] [Hin2 Hle2].
  rewrite Hperm in Hin1. rewrite <- Hperm in Hin2.
  specialize (Hle1 _ Hin2). specialize (Hle2 _ Hin1). lia.
Qed.

Lemma is_maximum_unique m1 m2 l1 l2 :
  l1 ≡ₚ l2 → is_maximum m1 l1 → is_maximum m2 l2 → m1 = m2.
Proof.
  intros Hperm [Hin1 Hle1] [Hin2 Hle2].
  rewrite Hperm in Hin1. rewrite <- Hperm in Hin2.
  specialize (Hle1 _ Hin2). specialize (Hle2 _ Hin1). lia.
Qed.

(** Only the times count.  On trees both traversals accept, the results
    depend on the creation times of the files alone: two trees with
    the same times, however the files are named, nested or listed, give
    the same oldest and the same newest time. *)
Theorem traversal_depends_on_times path1 path2 :
  traversable path1 → traversable path2 →
  file_times path1 ≡ₚ file_times path2 →
  get_oldest_modified_time path1 = get_oldest_modified_time path2 ∧
  get_newest_modified_time path1 = get_newest_modified_time path2.
Proof.
  intros H1 H2 Hperm.
  destruct (get_oldest_modified_time_sound _ H1) as (o1 & -> & Ho1).
  destruct (get_oldest_modified_time_sound _ H2) as (o2 & -> & Ho2).
  destruct (get_newest_modified_time_sound _ H1) as (n1 & -> & Hn1).
  destruct (get_newest_modified_time_sound _ H2) as (n2 & -> & Hn2).
  by rewrite (is_minimum_unique o1 o2 _ _ Hperm Ho1 Ho2),
    (is_maximum_unique n1 n2 _ _ Hperm Hn1 Hn2).
Qed.

Lemma traversal_depends_on_times_witness :
  get_newest_modified_time sample_source =
  get_newest_modified_time
    (Directory [("wood.png", File 7); ("resources.yaml", File 12); ("plank.png", File 15)]).
Proof.
  apply traversal_depends_on_times.
  - by split.
  - by split.
  - vm_compute. apply Permutation_swap.
Defined.

(** File by file.  With an output tree and all three trees
    traversable, the build is skipped exactly when every file of the
    output tree is newer than every file of the resource and core trees
    and than [build.py]; one input file as new as one output file is
    enough to rebuild. *)
Theorem skipped_iff_every_output_newer calc fs folder :
  calculator_folder fs = Some folder →
  traversable folder → traversable (source_folder fs) → traversable (core fs) →
  outcome (create_calculator_page calc fs) = Ok Skip ↔
  ∀ t_out t_in,
    t_out ∈ file_times folder →
    t_in ∈ file_times (source_folder fs) ++ file_times (core fs) ++ [build_script fs] →
    t_in < t_out.
Proof.
  intros Hfolder Hout Hsrc Hcore. unfold create_calculator_page. rewrite Hfolder.
  destruct (get_oldest_modified_time_sound _ Hout) as (oldest & -> & Hmin_in & Hmin).
  destruct (get_newest_modified_time_sound _ Hsrc) as (n1 & -> & Hn1_in & Hn1).
  destruct (get_newest_modified_time_sound _ Hcore) as (n2 & -> & Hn2_in & Hn2).
  rewrite !silent_bind. cbn zeta.
  destruct (Z.ltb_spec (Z.max (Z.max n1 n2) (build_script fs)) oldest) as [Hlt|Hge].
  - split; [|done]. intros _ t_out t_in Hout' Hin.
    specialize (Hmin _ Hout').
    rewrite !elem_of_app, list_elem_of_singleton in Hin.
    destruct Hin as [Hin|[Hin| ->]].
    + specialize (Hn1 _ Hin). simpl in Hn1. lia.
    + specialize (Hn2 _ Hin). simpl in Hn2. lia.
    + lia.
  - split; [done|]. intros Hall. exfalso.
    assert (n1 < oldest) by (apply Hall; [done|]; rewrite !elem_of_app; by left).
    assert (n2 < oldest)
      by (apply Hall; [done|]; rewrite !elem_of_app; right; by left).
    assert (build_script fs < oldest).
    { apply Hall; [done|]. rewrite !elem_of_app, list_elem_of_singleton. by do 2 right. }
    lia.
Qed.

Lemma skipped_iff_every_output_newer_witness :
  outcome (create_calculator_page "minecraft"
             (FileSystem (Some sample_output) sample_source sample_core 19)) ≠ Ok Skip.
Proof.
  intros Hskip.
  pose proof (proj1 (skipped_iff_every_output_newer "minecraft"
                       (FileSystem (Some sample_output) sample_source sample_core 19)
                       sample_output eq_refl (conj I eq_refl) (conj I eq_refl)
                       (conj I eq_refl)) Hskip 18 19) as Hlt.
  assert (19 < 18); [|lia]. apply Hlt.
  - change (18 ∈ [20; 18]). by right; left.
  - cbn [build_script source_folder core].
    rewrite !elem_of_app, list_elem_of_singleton. by do 2 right.
Defined.

(** ** Styles and orphan icons *)

Lemma style_of_run coordinates item :
  style_of coordinates item =
  (if decide (coordinates !! simple_name item = None)
   then [MissingIcon (simple_name item)] else [],
   Ok (style_for coordinates (simple_name item))).
Proof.
  unfold style_of, style_for.
  destruct (coordinates !! simple_name item) as [[x y]|]; [done|].
  by rewrite decide_True.
Qed.

Lemma add_item_run coordinates acc item :
  add_item coordinates acc item =
  (if decide (coordinates !! simple_name item = None)
   then [MissingIcon (simple_name item)] else [],
   Ok (<[simple_name item := style_for coordinates (simple_name item)]> acc.1,
       acc.2 ++ [PageResource item (simple_name item)])).
Proof.
  unfold add_item. rewrite style_of_run, bind_ok.
  cbn [output outcome fst snd mret run_ret]. by rewrite app_nil_r.
Qed.

Lemma item_styles_loop coordinates names styles acc :
  for_in names (styles, acc) (add_item coordinates) =
  (MissingIcon ∘ simple_name
     <$> filter (λ item, coordinates !! simple_name item = None) names,
   Ok (foldl (λ m item, <[simple_name item := style_for coordinates (simple_name item)]> m)
             styles names,
       acc ++ ((λ item, PageResource item (simple_name item)) <$> names))).
Proof.
  revert styles acc. induction names as [|item names IH]; intros styles acc.
  - simpl. by rewrite app_nil_r.
  - cbn [for_in]. rewrite add_item_run, bind_ok, IH, filter_cons.
    cbn [output outcome foldl fst snd]. rewrite <- app_assoc.
    destruct (decide (coordinates !! simple_name item = None)); done.
Qed.

Lemma foldl_style_lookup coordinates names (styles : gmap string item_style) k :
  foldl (λ m item, <[simple_name item := style_for coordinates (simple_name item)]> m)
        styles names !! k =
  if decide (k ∈ simple_name <$> names) then Some (style_for coordinates k)
  else styles !! k.
Proof.
  revert styles. induction names as [|item names IH]; intros styles; [done|].
  cbn [foldl]. rewrite IH, fmap_cons.
  destruct (decide (k ∈ simple_name <$> names)) as [Hin|Hnin].
  - rewrite decide_True; [done|by right].
  - destruct (decide (simple_name item = k)) as [<-|Hne].
    + rewrite decide_True by (by left). by rewrite lookup_insert_eq.
    + rewrite decide_False.
      * by rewrite lookup_insert_ne.
      * intros [?|?]%elem_of_cons; congruence.
Qed.

(** Styles.  The style loop never raises; it lists one resource per
    item, in order; it prints the warning of line 279 once per item
    without icon; and the style filed under a simple name is the
    background position [(-x, -y)] of the icon with that key, or
    purple when there is none - a style under exactly the simple names
    of the items. *)
Theorem item_styles_spec coordinates (recipes : resources) :
  ∃ styles,
    item_styles coordinates recipes =
      (MissingIcon ∘ simple_name
         <$> filter (λ item, coordinates !! simple_name item = None) recipes.*1,
       Ok (styles, (λ item, PageResource item (simple_name item)) <$> recipes.*1)) ∧
    dom styles = list_to_set (simple_name <$> recipes.*1) ∧
    ∀ item, item ∈ recipes.*1 →
      styles !! simple_name item =
      Some (match coordinates !! simple_name item with
            | Some (x, y) => BackgroundPosition (- x) (- y)
            | None => Purple
            end).
Proof.
  eexists. split; [apply item_styles_loop|]. split.
  - apply set_eq. intros k.
    rewrite elem_of_dom, foldl_style_lookup, elem_of_list_to_set.
    destruct (decide (k ∈ simple_name <$> recipes.*1)); [by split; eauto|].
    rewrite lookup_empty. split; [by intros [? ?]|done].
  - intros item Hitem. rewrite foldl_style_lookup, decide_True; [done|].
    apply list_elem_of_fmap. by exists item.
Qed.

Lemma keys_in_order_spec seen names k :
  k ∈ keys_in_order seen names ↔ k ∈ names ∧ k ∉ seen.
Proof.
  revert seen. induction names as [|x names IH]; intros seen; simpl.
  - split; [by intros ?%elem_of_nil|by intros [?%elem_of_nil _]].
  - destruct (decide (x ∈ seen)) as [Hx|Hx].
    + rewrite IH, elem_of_cons. split; [tauto|].
      intros [[->|?] ?]; [done|tauto].
    + rewrite !elem_of_cons, IH, elem_of_cons. split.
      * intros [->|[? ?]]; [tauto|]. split; [tauto|]. tauto.
      * intros [[->|?] ?]; [tauto|].
        destruct (decide (k = x)) as [->|]; [tauto|]. right. tauto.
Qed.

Lemma keys_in_order_NoDup seen names : NoDup (keys_in_order seen names).
Proof.
  revert seen. induction names as [|x names IH]; intros seen; simpl; [constructor|].
  destruct (decide (x ∈ seen)); [apply IH|].
  apply NoDup_cons. split; [|apply IH].
  rewrite keys_in_order_spec. intros [_ Hx]. apply Hx. by left.
Qed.

(** Orphan icons.  After a run of the packer, the warning of line 321
    is printed once for each key of the coordinate map that is the
    simple name of no item, and for no other name; so every icon is
    either used by an item or reported, and an icon whose file root has
    a character outside [a-z] is always reported. *)
Theorem orphan_icons_spec pngquant listing p styled (recipes : resources) :
  outcome (create_packed_image pngquant listing) = Ok p →
  outcome (item_styles (image_coordinates p) recipes) = Ok styled →
  let orphans := orphan_icons p styled.2 in
  NoDup orphans ∧
  (∀ k, k ∈ orphans ↔
        k ∈ dom (image_coordinates p) ∧ ∀ item, item ∈ recipes.*1 → simple_name item ≠ k) ∧
  (∀ f, f ∈ listing →
        ¬ Forall (λ a, Str.is_lower a = true) (Str.chars (Str.splitext_root (file_name f))) →
        Str.splitext_root (file_name f) ∈ orphans).
Proof.
  rewrite create_packed_image_pack.
  intros (w & h & columns & _ & _ & _ & _ & ->)%pack_inv.
  unfold item_styles. rewrite item_styles_loop. intros [= <-].
  cbn [snd image_coordinates app]. set (orphans := orphan_icons _ _).
  set (names := (sort_by_name (entry <$> listing)).*1) in *.
  assert (∀ k, k ∈ orphans ↔
               k ∈ names ∧ ∀ item, item ∈ recipes.*1 → simple_name item ≠ k) as Hspec.
  { intros k. subst orphans. unfold orphan_icons.
    cbn [result_image pasted app]. rewrite boxes_from_names.
    rewrite list_elem_of_filter, keys_in_order_spec, <- not_true_iff_false,
      contains_elem_of.
    rewrite <- list_fmap_compose.
    split.
    - intros [Hno [Hk _]]. split; [done|]. intros item Hitem <-. apply Hno.
      apply list_elem_of_fmap. by exists item.
    - intros [Hk Hno]. split; [|split; [done|by intros ?%elem_of_nil]].
      intros (item & -> & Hitem)%list_elem_of_fmap. by apply (Hno item). }
  assert (∀ k, k ∈ names ↔ ∃ f, f ∈ listing ∧ Str.splitext_root (file_name f) = k)
    as Hnames.
  { intros k. subst names. rewrite sorted_names_Permutation, <- list_fmap_compose,
      list_elem_of_fmap. split; intros (f & ? & ?); by exists f. }
  split; [|split].
  - subst orphans. unfold orphan_icons. apply NoDup_filter, keys_in_order_NoDup.
  - intros k. rewrite Hspec, assign_all_dom, boxes_from_names, elem_of_list_to_set. done.
  - intros f Hf Hbad. apply Hspec. split; [apply Hnames; by exists f|].
    intros item _ Heq. apply Hbad. rewrite <- Heq.
    apply simple_name_letters.
Qed.

Lemma orphan_icons_spec_witness :
  ∃ p styles,
    outcome (create_packed_image None [img "Iron Ore.png" 16 16]) = Ok p ∧
    outcome (item_styles (image_coordinates p) [("Iron Ore", [])]) = Ok styles ∧
    "Iron Ore" ∈ orphan_icons p styles.2.
Proof.
  assert (outcome (create_packed_image None [img "Iron Ore.png" 16 16]) =
          Ok (Packed 16 16 {[ "Iron Ore" := (0, 0) ]}
                (Sheet 16 16 [("Iron Ore", (0, 0))]))) as Hrun.
  { rewrite create_packed_image_pack. vm_compute. reflexivity. }
  destruct (outcome (item_styles {[ "Iron Ore" := (0, 0) ]} [("Iron Ore", [])]))
    as [styles|e] eqn:Hstyles; [|by vm_compute in Hstyles].
  eexists _, styles. split; [exact Hrun|]. split; [exact Hstyles|].
  apply (proj2 (proj2 (orphan_icons_spec _ _ _ _ _ Hrun Hstyles))
           (img "Iron Ore.png" 16 16)); [by left|].
  intros Hall. apply Forall_cons in Hall as [Hupper _]. discriminate.
Defined.

(** ** The width rules *)

Lemma content_width_loop_spec g w' fuel k css :
  0 < g * w' → 1 ≤ k → k ≤ 3839 / (g * w') + 1 →
  (Z.to_nat (3839 / (g * w') + 1 - k) < fuel)%nat →
  content_width_loop fuel k g w' css =
  Some (css ++ ((λ k, new_css (k * g * w') ((k + 1) * g * w'))
                  <$> seqZ k (3839 / (g * w') + 1 - k))).
Proof.
  intros Hc. set (N := 3839 / (g * w')).
  assert (∀ k, k * g * w' < 3840 ↔ k ≤ N) as Hcond.
  { intros j. subst N.
    pose proof (Z.div_mod 3839 (g * w') ltac:(lia)) as Hdm.
    pose proof (Z.mod_pos_bound 3839 (g * w') Hc) as Hmod.
    split; intros H; nia. }
  revert k css. induction fuel as [|fuel IH]; intros k css Hk Hle Hfuel; [lia|].
  cbn [content_width_loop].
  destruct (Z.ltb_spec (k * g * w') 3840) as [Hlt|Hge].
  - apply Hcond in Hlt.
    rewrite IH by lia.
    rewrite (seqZ_cons k) by lia.
    replace (Z.succ k) with (k + 1) by lia.
    replace (Z.pred (N + 1 - k)) with (N + 1 - (k + 1)) by lia.
    by rewrite fmap_cons, <- app_assoc.
  - assert (¬ k ≤ N) by (rewrite <- Hcond; lia).
    rewrite seqZ_nil by lia. by rewrite app_nil_r.
Qed.

Lemma content_width_loop_diverges g w' fuel k css :
  g * w' ≤ 0 → 1 ≤ k → content_width_loop fuel k g w' css = None.
Proof.
  intros Hc. revert k css. induction fuel as [|fuel IH]; intros k css Hk; [done|].
  cbn [content_width_loop].
  destruct (Z.ltb_spec (k * g * w') 3840) as [_|Hge]; [apply IH; lia|nia].
Qed.

(** Width rules.  With a positive group count, the loops of lines
    295-306 end (3840 tests of the loop condition always suffice) and
    give [3839 div (g * w')] rules for whole groups and [g - 1] rules
    for single icons, where [w' = image_width + 6].  Every rule has a
    non-empty range of screen widths that starts 40 pixels above its
    content width, a positive multiple of [w'], and the ranges of two
    different rules never overlap: at most one rule applies to a
    screen. *)
Theorem content_width_rules_spec (fuel : nat) g image_width :
  0 < g → 0 ≤ image_width → (3840 ≤ fuel)%nat →
  ∃ css,
    content_width_rules fuel (Some g) image_width = Some css ∧
    Z.of_nat (length css) = 3839 / (g * (image_width + 6)) + (g - 1) ∧
    (∀ r, r ∈ css →
       min_width r ≤ max_width r ∧ min_width r = content_width r + 40 ∧
       ∃ units, 0 < units ∧ content_width r = units * (image_width + 6)) ∧
    (∀ (i j : nat) r1 r2,
       i ≠ j → css !! i = Some r1 → css !! j = Some r2 →
       max_width r1 < min_width r2 ∨ max_width r2 < min_width r1).
Proof.
  intros Hg Hw Hfuel. set (w' := image_width + 6).
  assert (0 < g * w') as Hc by (subst w'; nia).
  set (N := 3839 / (g * w')).
  assert (0 ≤ N) as HN by (apply Z.div_pos; lia).
  assert (N ≤ 3839) as HN'.
  { subst N. apply Z.div_le_upper_bound; [done|]. nia. }
  unfold content_width_rules. cbn [default from_option id]. fold w'.
  rewrite (content_width_loop_spec g w') by (fold N; lia).
  fold N. cbn [mbind option_bind app]. unfold range.
  replace (N + 1 - 1) with N by lia.
  set (F := λ k, new_css (k * g * w') ((k + 1) * g * w')).
  set (G := λ i, new_css (i * w') ((i + 1) * w')).
  eexists. split; [done|].
  assert (∀ (i : nat) r,
            ((F <$> seqZ 1 N) ++ (G <$> seqZ 1 (g - 1))) !! i = Some r →
            ∃ lo hi, 0 < lo ∧ lo < hi ∧
                     r = MediaRule (hi * w' + 39) (lo * w' + 40) (lo * w') ∧
                     ((Z.of_nat i < N ∧ lo = (Z.of_nat i + 1) * g
                       ∧ hi = (Z.of_nat i + 2) * g)
                      ∨ (N ≤ Z.of_nat i ∧ lo = Z.of_nat i - N + 1 ∧ hi = lo + 1
                         ∧ hi ≤ g))) as Hat.
  { intros i r Hi. apply lookup_app_Some in Hi as [Hi|[Hlen Hi]].
    - rewrite list_lookup_fmap in Hi.
      destruct (seqZ 1 N !! i) as [k|] eqn:Hk; [|done].
      apply lookup_seqZ in Hk as [-> Hlt]. injection Hi as <-.
      exists ((1 + Z.of_nat i) * g), ((1 + Z.of_nat i + 1) * g).
      split; [nia|]. split; [nia|]. split.
      + unfold F, new_css, media_padding. f_equal; lia.
      + left. lia.
    - rewrite length_fmap, length_seqZ in Hlen.
      rewrite length_fmap, length_seqZ, list_lookup_fmap in Hi.
      destruct (seqZ 1 (g - 1) !! (i - Z.to_nat N)%nat) as [k|] eqn:Hk; [|done].
      apply lookup_seqZ in Hk as [-> Hlt]. injection Hi as <-.
      exists (1 + Z.of_nat (i - Z.to_nat N)), (1 + Z.of_nat (i - Z.to_nat N) + 1).
      split; [lia|]. split; [lia|]. split.
      + unfold G, new_css, media_padding. f_equal; lia.
      + right. lia. }
  split; [|split].
  - rewrite length_app, !length_fmap, !length_seqZ. lia.
  - intros r [i Hi]%list_elem_of_lookup.
    destruct (Hat i r Hi) as (lo & hi & Hlo & Hhi & -> & _). cbn.
    split; [nia|]. split; [done|]. exists lo. done.
  - intros i j r1 r2 Hij Hi Hj.
    destruct (Hat i r1 Hi) as (lo1 & hi1 & Hlo1 & Hhi1 & -> & Hpos1).
    destruct (Hat j r2 Hj) as (lo2 & hi2 & Hlo2 & Hhi2 & -> & Hpos2). cbn.
    assert (hi1 ≤ lo2 ∨ hi2 ≤ lo1) as [Hle|Hle].
    { destruct Hpos1 as [(Hi1 & -> & ->)|(Hi1 & -> & -> & Hg1)];
        destruct Hpos2 as [(Hj1 & -> & ->)|(Hj1 & -> & -> & Hg2)].
      - destruct (Z.lt_total (Z.of_nat i) (Z.of_nat j)) as [?|[?|?]];
          [left; nia|lia|right; nia].
      - right. nia.
      - left. nia.
      - destruct (Z.lt_total (Z.of_nat i) (Z.of_nat j)) as [?|[?|?]];
          [left; lia|lia|right; lia]. }
    + left. nia.
    + right. nia.
Qed.

Lemma content_width_rules_spec_witness :
  ∃ css, content_width_rules 3840 (Some 4) 32 = Some css
         ∧ Z.of_nat (length css) = 3839 / (4 * (32 + 6)) + (4 - 1).
Proof.
  destruct (content_width_rules_spec 3840 4 32) as (css & Hrun & Hlen & _);
    [lia..|].
  exists css. auto.
Defined.

(** A group count that is zero or negative.  Then the condition of the
    [while] loop of line 295 holds at every iteration: however many
    rounds are allowed, the loop has not ended. *)
Theorem content_width_rules_diverges (fuel : nat) g image_width :
  g ≤ 0 → 0 ≤ image_width →
  content_width_rules fuel (Some g) image_width = None.
Proof.
  intros Hg Hw. unfold content_width_rules. cbn [default from_option id].
  rewrite content_width_loop_diverges; [done|nia|lia].
Qed.

Lemma content_width_rules_diverges_witness :
  content_width_rules 100 (Some 0) 32 = None.
Proof. apply content_width_rules_diverges; lia. Defined.
